(** * Best-first search (graph, tree, recursive): a shallow embedding of
    [bestfirstsearch.hpp] and the properties of its three algorithms.

    Costs ([Traits::pathcost], [Traits::cost]) are integers; the largest value
    of the cost type, [std::numeric_limits<PathCost>::max()], is the section
    variable [INF].  Loops and recursion that need not terminate carry a fuel
    argument: [None] stands for "did not return within the fuel". *)

From stdpp Require Import base option list gmap.
From Stdlib Require Import ZArith Sorted.

Local Open Scope Z_scope.
Set Warnings "-register-all".

(** ** Priority queue *)

(** Modelled from the spec: the [PriorityQueue] template argument (a mutable
    max-heap such as a Fibonacci heap) is not part of the source file.  It is
    kept as the list of its elements in the order of [ordered_begin()], best
    first.  [lt x y] is the heap's comparison: [x] has lower priority than
    [y]. *)
Section PriorityQueue.
Context {A : Type} (lt : A → A → bool).

Fixpoint pq_push (x : A) (q : list A) : list A :=
  match q with
  | [] => [x]
  | y :: q' => if lt y x then x :: y :: q' else y :: pq_push x q'
  end.

Definition pq_top (q : list A) : option A := head q.

(** [detail::pop]: [top()] followed by [pop()]. *)
Definition pop (q : list A) : option (A * list A) :=
  match q with
  | [] => None
  | E :: q' => Some (E, q')
  end.
End PriorityQueue.

(** ** Loops *)

(** A [while] loop whose body is [step]: [step c] gives the variables after
    one test of the condition and one run of the body, and the outcome when
    the function is left there.  [while_loop step k c] runs at most [k]
    iterations from [c]: it gives the variables reached, and the outcome once
    the loop is left. *)
Fixpoint while_loop {C R : Type} (step : C → C * option R) (k : nat) (c : C)
    : C * option R :=
  match k with
  | O => (c, None)
  | S k' =>
      match step c with
      | (c', None) => while_loop step k' c'
      | fin => fin
      end
  end.

(** ** Outcome of a search: a value or the exception [goal_not_found] *)

Inductive outcome (R : Type) : Type :=
| Returns (r : R)
| Throws_goal_not_found.
Arguments Returns {R} r.
Arguments Throws_goal_not_found {R}.

Section Search.
Context {State Action : Type} `{Countable State} `{Inhabited Action}.

(** [Traits::node] is a shared pointer to this record; the null pointer
    [Node()] is [None] in [option Node]. *)
Inductive Node : Type := mkNode {
  state : State;
  parent : option Node;
  action : Action;
  path_cost : Z
}.

(** The policies of [Problem] that the algorithms call. *)
Record Problem : Type := mkProblem {
  initial : State;
  goal_test : State → bool;
  actions : State → list Action;
  result : State → Action → State;
  step_cost : State → Action → State → Z
}.

(** Modelled from the spec: [DefaultNodeCreator] and [DefaultChildPolicy]
    live in problem.hpp.  A child's path cost is its parent's plus the
    step cost, and its parent reference is the expanded node. *)
Definition create (s : State) (p : option Node) (a : Action) (c : Z) : Node :=
  mkNode s p a c.

Definition child3 (P : Problem) (PARENT : Node) (ACTION : Action)
    (SUCCESSOR : State) : Node :=
  create SUCCESSOR (Some PARENT) ACTION
    (path_cost PARENT + step_cost P (state PARENT) ACTION SUCCESSOR).

Definition child (P : Problem) (PARENT : Node) (ACTION : Action) : Node :=
  child3 P PARENT ACTION (result P (state PARENT) ACTION).

Definition root (P : Problem) : Node :=
  create (initial P) None inhabitant 0.

(** *** The frontier of graph search: [queue_set] *)

Variable Comparator : Node → Node → bool.

(** Modelled from the spec: [jsearch::queue_set] (utils/queue_set.hpp) is a
    priority queue with a state-keyed lookup table.  The frontier is the
    list of its nodes, best first; [find] gives the position (the handle)
    and the node stored for a state. *)
Definition find (s : State) (frontier : list Node) : option (nat * Node) :=
  list_find (λ n, state n = s) frontier.

Definition push (n : Node) (frontier : list Node) : list Node :=
  pq_push Comparator n frontier.

Definition increase (handle : nat) (n : Node) (frontier : list Node)
    : list Node :=
  pq_push Comparator n (delete handle frontier).

(** [detail::handle_child]: the new frontier and the reported element. *)
Definition handle_child (frontier : list Node) (CHILD : Node)
    : list Node * option Node :=
  match find (state CHILD) frontier with
  | Some (IT, DUPLICATE) =>
      if bool_decide (path_cost CHILD < path_cost DUPLICATE)
      then (increase IT CHILD frontier, Some DUPLICATE)
      else (frontier, None)
  | None => (push CHILD frontier, Some CHILD)
  end.

(** *** Graph search *)

(** The lambda [unravel]: one state per step is written to the sink. *)
Fixpoint unravel (path : list State) (node : Node) : list State :=
  match node with
  | mkNode s p _ _ =>
      match p with
      | Some p' => unravel (path ++ [s]) p'
      | None => path ++ [s]
      end
  end.

(** The loop variables, and [popped]: the states taken from the frontier,
    in order (the counter [stats.popped], with the states kept). *)
Record gconfig : Type := mkG {
  frontier : list Node;
  closed : gset State;
  popped : list State
}.

(** The body of [std::for_each] over ACTIONS. *)
Definition expand_action (P : Problem) (S_ : Node) (cl : gset State)
    (fr : list Node) (ACTION : Action) : list Node :=
  let SUCCESSOR := result P (state S_) ACTION in
  if decide (SUCCESSOR ∈ cl) then fr
  else (handle_child fr (child3 P S_ ACTION SUCCESSOR)).1.

(** One test of [while(!frontier.empty())] and one run of its body. *)
Definition graph_step (P : Problem) (c : gconfig)
    : gconfig * option (outcome (list State * Z)) :=
  match pop (frontier c) with
  | None => (c, Some Throws_goal_not_found)
  | Some (S_, fr) =>
      let pp := popped c ++ [state S_] in
      if goal_test P (state S_)
      then (mkG fr (closed c) pp, Some (Returns (unravel [] S_, path_cost S_)))
      else
        let cl := {[state S_]} ∪ closed c in
        (mkG (foldl (expand_action P S_ cl) fr (actions P (state S_))) cl pp,
         None)
  end.

Definition graph_run (P : Problem) (k : nat) (c : gconfig)
    : gconfig * option (outcome (list State * Z)) :=
  while_loop (graph_step P) k c.

Definition graph_init (P : Problem) : gconfig :=
  mkG (push (root P) []) ∅ [].

(** [best_first_search] with a closed set: the states written to [path]
    and the returned path cost. *)
Definition best_first_search (P : Problem) (fuel : nat)
    : option (outcome (list State * Z)) :=
  (graph_run P fuel (graph_init P)).2.

(** *** What the properties of graph search are stated with *)

(** The parent chain of a node: the node, its parent, and so on up to the
    node without parent. *)
Fixpoint ancestors (node : Node) : list Node :=
  match node with
  | mkNode _ p _ _ =>
      node :: match p with
              | Some p' => ancestors p'
              | None => []
              end
  end.

(** The frontier after the actions [acts] of node [S_] were handled. *)
Definition expand (P : Problem) (S_ : Node) (cl : gset State)
    (fr : list Node) (acts : list Action) : list Node :=
  foldl (expand_action P S_ cl) fr acts.

(** The frontier holds one entry per state at most, and none for a state
    of the closed set. *)
Definition frontier_ok (cl : gset State) (fr : list Node) : Prop :=
  NoDup (state <$> fr) ∧ ∀ n, n ∈ fr → state n ∉ cl.

(** The parent chain of [n] ends in the initial state. *)
Definition rooted (P : Problem) (n : Node) : Prop :=
  last (state <$> ancestors n) = Some (initial P).

(** The invariant of the loop of graph search, at the test of its
    condition. *)
Definition graph_inv (P : Problem) (c : gconfig) : Prop :=
  NoDup (popped c)
  ∧ frontier_ok (closed c) (frontier c)
  ∧ (∀ s, s ∈ closed c ↔ s ∈ popped c)
  ∧ Forall (λ s, goal_test P s = false) (popped c)
  ∧ Forall (rooted P) (frontier c).

(** What holds of the variables after any number of iterations, also
    when the loop was left. *)
Definition graph_post (P : Problem) (c : gconfig) : Prop :=
  NoDup (popped c)
  ∧ frontier_ok (closed c) (frontier c)
  ∧ (∀ s, s ∈ popped c → goal_test P s = false → s ∈ closed c)
  ∧ (∀ s, s ∈ closed c → s ∈ popped c ∧ goal_test P s = false).

(** *** Tree search *)

(** The frontier is the bare priority queue; [tpopped] lists the states
    taken from it. *)
Record tconfig : Type := mkT {
  tfrontier : list Node;
  tpopped : list State
}.

Definition tree_step (P : Problem) (c : tconfig)
    : tconfig * option (outcome Node) :=
  match pop (tfrontier c) with
  | None => (c, Some Throws_goal_not_found)
  | Some (S_, fr) =>
      let pp := tpopped c ++ [state S_] in
      if goal_test P (state S_)
      then (mkT fr pp, Some (Returns S_))
      else
        (mkT (foldl (λ fr' ACTION, pq_push Comparator (child P S_ ACTION) fr')
                fr (actions P (state S_))) pp,
         None)
  end.

Definition tree_run (P : Problem) (k : nat) (c : tconfig)
    : tconfig * option (outcome Node) :=
  while_loop (tree_step P) k c.

Definition tree_init (P : Problem) : tconfig :=
  mkT (pq_push Comparator (root P) []) [].

(** [best_first_search] without a closed set: the goal node. *)
Definition best_first_search_tree (P : Problem) (fuel : nat)
    : option (outcome Node) :=
  (tree_run P fuel (tree_init P)).2.
End Search.

Arguments Node : clear implicits.
Arguments Problem : clear implicits.
Arguments gconfig _ _ {_ _}.
Arguments tconfig : clear implicits.

(** ** Recursive best-first search *)

Module recursive.
Section RBFS.
Context {State Action : Type}.
Local Abbreviation Node := (Node State Action).

(** [COST.f]: the evaluation function of [CostFunction] (evaluation.hpp);
    [split]: the comparison of the [TiePolicy]; [INF]: the macro
    [RBFS_INF], the largest value of the cost type. *)
Variable f : Node → Z.
Variable split : Node → Node → bool.
Variable INF : Z.

(** [NodeCost]: a node with its stored cost.  The [handle] member only
    names the entry's own place in the heap and is left out: the best
    entry is the head of the list. *)
Record NodeCost : Type := mkNodeCost {
  node : Node;
  cost : Z
}.

(** [NodeCost::operator<] ("greater-than for max-heap"). *)
Definition NodeCost_lt (a b : NodeCost) : bool :=
  if cost a =? cost b then split (node a) (node b)
  else if cost a >? cost b then true else false.

Definition update_cost (COST : Z) (nc : NodeCost) : NodeCost :=
  mkNodeCost (node nc) COST.

(** [SearchResult]: [first] is the goal node or null, [second] a cost. *)
Definition SearchResult : Type := option Node * Z.

(** The recursive invocations made during a call, in order, each with its
    arguments NODE, F_N and B. *)
Record Call : Type := mkCall {
  call_node : Node;
  call_F : Z;
  call_B : Z
}.

(** The loop "FOR each child Ni of N". *)
Definition make_children (P : Problem State Action) (NODE : Node) (F_N : Z)
    : list NodeCost :=
  let f_N := f NODE in
  foldl (λ children ACTION,
           let CHILD := child P NODE ACTION in
           let f_CHILD := f CHILD in
           let f_RESULT :=
             if f_N <? F_N then Z.max F_N f_CHILD else f_CHILD in
           pq_push NodeCost_lt (mkNodeCost CHILD f_RESULT) children)
        [] (actions P (state NODE)).

(** SECOND_BEST_COST: the cost of the entry after the best one in heap
    order, [INF] when the iterator [it] is at [ordered_end()]. *)
Definition second_best_cost (it : list NodeCost) : Z :=
  match it with
  | [] => INF
  | sb :: _ => cost sb
  end.

(** The loop "WHILE (F[1] <= B and F[1] < infinity)" and the final
    [return]; [rec] is the recursive call.  [top()] of an empty heap does
    not occur ([children] holds one entry per action of a non-empty
    ACTIONS) and is given no result. *)
Fixpoint rbfs_while
    (rec : Node → Z → Z → option (SearchResult * list Call))
    (fuel : nat) (children : list NodeCost) (B : Z)
    : option (SearchResult * list Call) :=
  match fuel with
  | O => None
  | S fuel' =>
      match children with
      | [] => None
      | BEST :: it =>
          if (cost BEST <=? B) && (cost BEST <? INF) then
            let SECOND_BEST_COST := second_best_cost it in
            let bound := Z.min B SECOND_BEST_COST in
            match rec (node BEST) (cost BEST) bound with
            | None => None
            | Some (RESULT, tr) =>
                let call := mkCall (node BEST) (cost BEST) bound in
                match RESULT.1 with
                | Some _ => Some (RESULT, call :: tr)
                | None =>
                    let children' :=
                      pq_push NodeCost_lt (update_cost RESULT.2 BEST) it in
                    match rbfs_while rec fuel' children' B with
                    | None => None
                    | Some (R, tr') => Some (R, call :: tr ++ tr')
                    end
                end
            end
          else Some ((None, cost BEST), [])
      end
  end.

(** [recursive::recursive_best_first_search]. *)
Fixpoint recursive_best_first_search (P : Problem State Action)
    (fuel : nat) (NODE : Node) (F_N B : Z)
    : option (SearchResult * list Call) :=
  match fuel with
  | O => None
  | S fuel' =>
      let f_N := f NODE in
      if f_N >? B then Some ((None, f_N), [])
      else if goal_test P (state NODE) then Some ((Some NODE, 0), [])
      else
        match actions P (state NODE) with
        | [] => Some ((None, INF), [])
        | _ :: _ =>
            rbfs_while (recursive_best_first_search P fuel') fuel'
              (make_children P NODE F_N) B
        end
  end.

(** *** What the properties of the recursion are stated with *)

(** The children are in ascending order of stored cost. *)
Definition cost_sorted (children : list NodeCost) : Prop :=
  StronglySorted (λ a b, cost a ≤ cost b) children.

(** The entry built for the child reached by ACTION. *)
Definition child_entry (P : Problem State Action) (NODE : Node) (F_N : Z)
    (ACTION : Action) : NodeCost :=
  let CHILD := child P NODE ACTION in
  mkNodeCost CHILD
    (if f NODE <? F_N then Z.max F_N (f CHILD) else f CHILD).

(** A call on a child: its stored cost is within the bound it is given,
    is below [INF], and is no less than the child's own [f]. *)
Definition call_ok (c : Call) : Prop :=
  call_F c ≤ call_B c ∧ call_F c < INF ∧ f (call_node c) ≤ call_F c.

(** A result without goal carries a cost above the bound [B], or [INF]. *)
Definition ret_ok (B : Z) (r : SearchResult) : Prop :=
  r.1 = None → B < r.2 ∨ INF ≤ r.2.
End RBFS.
End recursive.

(** The entry point [recursive_best_first_search]: the goal node, or
    [goal_not_found]. *)
Definition recursive_best_first_search {State Action : Type}
    `{Inhabited Action} (f : Node State Action → Z)
    (split : Node State Action → Node State Action → bool) (INF : Z)
    (P : Problem State Action) (fuel : nat)
    : option (outcome (Node State Action)) :=
  let initial := root P in
  match recursive.recursive_best_first_search f split INF P fuel
          initial (f initial) INF with
  | None => None
  | Some (RESULT, _) =>
      match RESULT.1 with
      | None => Some Throws_goal_not_found
      | Some goal => Some (Returns goal)
      end
  end.

(** ** Paths of a problem *)

Section Routes.
Context {State Action : Type}.
Variable P : Problem State Action.

(** The states that actions lead to from the initial state. *)
Inductive reachable : State → Prop :=
| reachable_initial : reachable (initial P)
| reachable_result (s : State) (a : Action) :
    reachable s → a ∈ actions P s → reachable (result P s a).

(** [route l c]: the list [l], read from its last state to its first, goes
    from the initial state along actions of the problem, and [c] is the sum
    of the step costs on the way.  (The first state of [l] is where the
    route arrives: the order in which [unravel] writes a path.) *)
Inductive route : list State → Z → Prop :=
| route_initial : route [initial P] 0
| route_step (s : State) (l : list State) (c : Z) (a : Action) :
    route (s :: l) c → a ∈ actions P s →
    route (result P s a :: s :: l) (c + step_cost P s a (result P s a)).

(** [path_to s c]: some route of cost [c] arrives at [s]. *)
Definition path_to (s : State) (c : Z) : Prop :=
  ∃ l, route (s :: l) c.

(** The nodes that the searches build: a root, and the children made by
    [child] for the actions of a node's state. *)
Inductive generated : Node State Action → Prop :=
| generated_root (a : Action) : generated (create (initial P) None a 0)
| generated_child (p : Node State Action) (a : Action) :
    generated p → a ∈ actions P (state p) → generated (child P p a).

(** [descends f NODE g m]: the node [g] is [NODE] or is built below it, and
    [m] is the largest [f] on the nodes from [NODE] to [g]. *)
Inductive descends (f : Node State Action → Z) (NODE : Node State Action)
    : Node State Action → Z → Prop :=
| descends_self : descends f NODE NODE (f NODE)
| descends_child (p : Node State Action) (m : Z) (a : Action) :
    descends f NODE p m → a ∈ actions P (state p) →
    descends f NODE (child P p a) (Z.max m (f (child P p a))).

(** The cost stored with an entry of the children structure is at most
    the [f] of every goal node below the entry's node. *)
Definition below_goals (f : Node State Action → Z)
    (nc : @recursive.NodeCost State Action) : Prop :=
  ∀ g' m, descends f (recursive.node nc) g' m →
          goal_test P (state g') = true →
          recursive.cost nc ≤ f g'.

(** No action has a negative step cost. *)
Definition nonneg_costs : Prop :=
  ∀ s a, a ∈ actions P s → 0 ≤ step_cost P s a (result P s a).
End Routes.

(** The frontier's comparison orders by path cost: it never puts a node
    behind a dearer one. *)
Definition cost_ordered {State Action : Type}
    (Comparator : Node State Action → Node State Action → bool) : Prop :=
  ∀ a b, (Comparator a b = true → path_cost b ≤ path_cost a)
         ∧ (Comparator a b = false → path_cost a ≤ path_cost b).

(** ** Further invariants of graph search *)

Section GraphInvariants.
Context {State Action : Type} `{Countable State}.
Variable P : Problem State Action.

(** The frontier holds nodes built by the search, and together with the
    closed set it holds the initial state and every successor of a closed
    state. *)
Definition graph_cover (c : gconfig State Action) : Prop :=
  Forall (generated P) (frontier c)
  ∧ (initial P ∈ closed c ∨ initial P ∈ (state <$> frontier c))
  ∧ ∀ s a, s ∈ closed c → a ∈ actions P s →
           result P s a ∈ closed c ∨ result P s a ∈ (state <$> frontier c).

(** The frontier is in ascending order of path cost; it holds the initial
    state at cost 0 at most unless that is closed; and for every route of
    cost [c0] to a closed state and every successor of it that is not
    closed, it holds the successor at no more than [c0] plus the step
    cost. *)
Definition graph_best (c : gconfig State Action) : Prop :=
  StronglySorted (λ a b, path_cost a ≤ path_cost b) (frontier c)
  ∧ (initial P ∈ closed c
     ∨ ∃ n, n ∈ frontier c ∧ state n = initial P ∧ path_cost n ≤ 0)
  ∧ ∀ s c0 a, s ∈ closed c → path_to P s c0 → a ∈ actions P s →
              result P s a ∉ closed c →
              ∃ n, n ∈ frontier c ∧ state n = result P s a
                   ∧ path_cost n ≤ c0 + step_cost P s a (result P s a).
End GraphInvariants.

(** ** Invariant of tree search *)

Section TreeInvariants.
Context {State Action : Type} `{Inhabited Action}.
Variable P : Problem State Action.

(** The nodes below the root that the entry points create. *)
Inductive built : Node State Action → Prop :=
| built_root : built (root P)
| built_child (p : Node State Action) (a : Action) :
    built p → a ∈ actions P (state p) → built (child P p a).

(** The frontier holds built nodes, and every built node was popped itself
    (its state is among the popped states then) or has a node of its parent
    chain on the frontier. *)
Definition tree_cover (c : tconfig State Action) : Prop :=
  Forall built (tfrontier c)
  ∧ Forall (λ s, goal_test P s = false) (tpopped c)
  ∧ ∃ D : list (Node State Action),
      (∀ g, g ∈ D → state g ∈ tpopped c)
      ∧ ∀ g, built g → g ∈ D ∨ ∃ n, n ∈ tfrontier c ∧ n ∈ ancestors g.
End TreeInvariants.

(** ** Example problems *)

(** The graph of three states A = 0, B = 1, C = 2 with the edges A -> B of
    cost 1, A -> C of cost 4 and B -> C of cost 1, and the goal C.  An action
    is named by the state it leads to. *)
Definition three_states : Problem nat nat := {|
  initial := 0%nat;
  goal_test := λ s, bool_decide (s = 2%nat);
  actions := λ s, match s with
                  | O => [1%nat; 2%nat]
                  | S O => [2%nat]
                  | _ => []
                  end;
  result := λ _ a, a;
  step_cost := λ s a _, match s, a with
                        | O, S O => 1
                        | O, S (S O) => 4
                        | S O, S (S O) => 1
                        | _, _ => 0
                        end
|}.

(** One state without actions that is no goal. *)
Definition dead_end : Problem nat nat := {|
  initial := 0%nat;
  goal_test := λ _, false;
  actions := λ _, [];
  result := λ _ a, a;
  step_cost := λ _ _ _, 1
|}.

(** Uniform cost: lower path cost first (the comparison of a max-heap). *)
Definition by_path_cost (a b : Node nat nat) : bool :=
  path_cost a >? path_cost b.

(** [f] with the zero heuristic. *)
Definition f_path_cost (n : Node nat nat) : Z := path_cost n.

(** [f] with a heuristic that is 2 at state 0 and 0 elsewhere.  It never
    overestimates the cost to the goal in [three_states], and it decreases
    from the initial state to the successor 1 (from 2 to 1). *)
Definition f_inconsistent (n : Node nat nat) : Z :=
  path_cost n + match state n with
                | O => 2
                | _ => 0
                end.

(** The largest value of a 32-bit [int] as the cost type. *)
Definition INT_MAX : Z := 2147483647.

Definition no_split (a b : Node nat nat) : bool := false.

(** [f] with the zero heuristic in a 32-bit cost type: never above
    [INT_MAX]. *)
Definition f_saturating (n : Node nat nat) : Z :=
  Z.min (path_cost n) INT_MAX.

(** [three_states] without a goal. *)
Definition no_goal : Problem nat nat :=
  mkProblem (initial three_states) (λ _, false) (actions three_states)
    (result three_states) (step_cost three_states).

(** The states of [three_states]. *)
Definition three_states_set : gset nat := {[0%nat; 1%nat; 2%nat]}.

(** * Properties *)

(** ** Loops *)

Section WhileLoop.
Context {C R : Type} (step : C → C * option R).

(** A loop that is left at some iteration is left there with any larger
    fuel. *)
Lemma while_loop_finish (k fuel : nat) (c0 c c' : C) (r : R) :
  while_loop step k c0 = (c, None) →
  step c = (c', Some r) →
  (k < fuel)%nat →
  while_loop step fuel c0 = (c', Some r).
Proof.
  revert c0 fuel. induction k as [|k IH]; intros c0 fuel Hrun Hstep Hlt.
  - destruct fuel as [|fuel]; [lia|]. simpl in *.
    injection Hrun as ->. by rewrite Hstep.
  - destruct fuel as [|fuel]; [lia|]. simpl in *.
    destruct (step c0) as [c1 [r1|]] eqn:Hc0; [done|].
    apply IH; [done | done | lia].
Qed.

(** A loop that was left, was left by the body at some iteration. *)
Lemma while_loop_finished (fuel : nat) (c0 c' : C) (r : R) :
  while_loop step fuel c0 = (c', Some r) →
  ∃ k c, (k < fuel)%nat ∧ while_loop step k c0 = (c, None)
         ∧ step c = (c', Some r).
Proof.
  revert c0. induction fuel as [|fuel IH]; intros c0 Hrun; [done|].
  simpl in Hrun. destruct (step c0) as [c1 [r1|]] eqn:Hc0.
  - injection Hrun as -> ->. exists O, c0. split; [lia | done].
  - destruct (IH _ Hrun) as (k & c & Hk & Hrun' & Hstep).
    exists (S k), c. split; [lia|]. simpl. by rewrite Hc0.
Qed.

(** A loop still running after [S k] iterations was running after [k],
    and the body ran once more. *)
Lemma while_loop_finished_last (k : nat) (c0 c : C) :
  while_loop step (S k) c0 = (c, None) →
  ∃ c1, while_loop step k c0 = (c1, None) ∧ step c1 = (c, None).
Proof.
  revert c0. induction k as [|k IH]; intros c0 Hrun.
  - simpl in Hrun. destruct (step c0) as [c1 [r|]] eqn:Hstep; [done|].
    injection Hrun as <-. by exists c0.
  - change (while_loop step (S (S k)) c0)
      with (match step c0 with
            | (c', None) => while_loop step (S k) c'
            | fin => fin
            end) in Hrun.
    destruct (step c0) as [c1 [r|]] eqn:Hstep; [done|].
    destruct (IH _ Hrun) as (c2 & Hrun2 & Hstep2).
    exists c2. split; [|done]. simpl. by rewrite Hstep.
Qed.

(** An invariant [I] of the running loop, with [J] what holds of the
    variables whenever the body has run, also on leaving. *)
Lemma while_loop_invariant (I J : C → Prop) :
  (∀ c, I c → J c) →
  (∀ c c' o, I c → step c = (c', o) → J c' ∧ (o = None → I c')) →
  ∀ k c0, I c0 →
    J (while_loop step k c0).1
    ∧ ((while_loop step k c0).2 = None → I (while_loop step k c0).1).
Proof.
  intros HIJ Hstep. induction k as [|k IH]; intros c0 H0; simpl.
  - split; [by apply HIJ | done].
  - destruct (step c0) as [c1 [r1|]] eqn:Hc0.
    + destruct (Hstep _ _ _ H0 Hc0) as [HJ _]. by split.
    + destruct (Hstep _ _ _ H0 Hc0) as [_ HI]. apply IH. by apply HI.
Qed.
End WhileLoop.

(** ** The priority queue *)

Section PriorityQueueFacts.
Context {A : Type} (lt : A → A → bool).

Lemma pq_push_perm (x : A) (q : list A) : pq_push lt x q ≡ₚ x :: q.
Proof.
  induction q as [|y q IH]; simpl; [done|].
  destruct (lt y x); [done|].
  rewrite IH. apply Permutation_swap.
Qed.

Lemma length_pq_push (x : A) (q : list A) :
  length (pq_push lt x q) = S (length q).
Proof. by rewrite pq_push_perm. Qed.

Lemma elem_of_pq_push (x y : A) (q : list A) :
  y ∈ pq_push lt x q ↔ y = x ∨ y ∈ q.
Proof. rewrite pq_push_perm. apply elem_of_cons. Qed.

(** Pushing an element outside [P] leaves the elements of [P] as they
    were, in the same order. *)
Lemma filter_pq_push (P : A → Prop) `{∀ a, Decision (P a)} (x : A)
    (q : list A) :
  ¬ P x → filter P (pq_push lt x q) = filter P q.
Proof.
  intros Hx. induction q as [|y q IH]; simpl.
  - by rewrite filter_cons_False.
  - destruct (lt y x).
    + by rewrite (filter_cons_False _ x).
    + rewrite !filter_cons. by rewrite IH.
Qed.
End PriorityQueueFacts.

(** ** Duplicate resolution *)

Section HandleChild.
Context {State Action : Type} `{EqDecision State}.
Local Abbreviation Node := (Node State Action).
Variable Comparator : Node → Node → bool.

Lemma find_None (s : State) (fr : list Node) :
  find s fr = None ↔ s ∉ (state <$> fr).
Proof.
  unfold find. rewrite list_find_None, Forall_forall, list_elem_of_fmap.
  split.
  - intros Hall (n & -> & Hn). by apply (Hall n).
  - intros Hno n Hn Hs. apply Hno. by exists n.
Qed.

Lemma find_Some (s : State) (fr : list Node) (i : nat) (n : Node) :
  find s fr = Some (i, n) → fr !! i = Some n ∧ state n = s.
Proof. unfold find. rewrite list_find_Some. by intros (? & ? & _). Qed.

Lemma delete_take_drop_middle (fr : list Node) (i : nat) (n : Node) :
  fr !! i = Some n →
  fr = take i fr ++ n :: drop (S i) fr
  ∧ delete i fr = take i fr ++ drop (S i) fr.
Proof.
  intros Hi. split.
  - by rewrite take_drop_middle.
  - apply delete_take_drop.
Qed.

(** The branches of [handle_child], by what [find] answers. *)
Lemma handle_child_branches (frontier : list Node) (CHILD : Node) :
  ((state CHILD ∉ (state <$> frontier))
   ∧ handle_child Comparator frontier CHILD
     = (push Comparator CHILD frontier, Some CHILD))
  ∨ (∃ (IT : nat) (DUPLICATE : Node),
       find (state CHILD) frontier = Some (IT, DUPLICATE)
       ∧ frontier !! IT = Some DUPLICATE
       ∧ state DUPLICATE = state CHILD
       ∧ ((path_cost CHILD < path_cost DUPLICATE
           ∧ handle_child Comparator frontier CHILD
             = (increase Comparator IT CHILD frontier, Some DUPLICATE))
          ∨ (path_cost DUPLICATE ≤ path_cost CHILD
             ∧ handle_child Comparator frontier CHILD = (frontier, None)))).
Proof.
  unfold handle_child.
  destruct (find (state CHILD) frontier) as [[IT DUP]|] eqn:Hfind.
  - right. exists IT, DUP.
    destruct (find_Some _ _ _ _ Hfind) as [Hlook Hst].
    repeat split; try done.
    case_bool_decide; [left | right]; split; (done || lia).
  - left. split; [by apply find_None | done].
Qed.

(** The frontier after a replacement holds the candidate in place of the
    entry it replaced. *)
Lemma increase_perm (fr : list Node) (i : nat) (n : Node) :
  increase Comparator i n fr ≡ₚ n :: delete i fr.
Proof. apply pq_push_perm. Qed.

(** C2: the three cases of [handle_child].  Either the candidate's state
    is not on the frontier: the candidate is pushed, so that the frontier
    holds it and the entries it had, and the candidate is reported.  Or
    [find] gives the entry DUPLICATE stored for that state; then a strictly
    cheaper candidate replaces it through [increase], so that the frontier
    holds the candidate and its other entries, and DUPLICATE is reported;
    any other candidate is dropped, the frontier is left as it was and null
    is reported. *)
Theorem handle_child_cases (frontier : list Node) (CHILD : Node) :
  ((state CHILD ∉ (state <$> frontier))
   ∧ handle_child Comparator frontier CHILD
     = (push Comparator CHILD frontier, Some CHILD)
   ∧ push Comparator CHILD frontier ≡ₚ CHILD :: frontier)
  ∨ (∃ (IT : nat) (DUPLICATE : Node),
       find (state CHILD) frontier = Some (IT, DUPLICATE)
       ∧ frontier !! IT = Some DUPLICATE
       ∧ state DUPLICATE = state CHILD
       ∧ ((path_cost CHILD < path_cost DUPLICATE
           ∧ handle_child Comparator frontier CHILD
             = (increase Comparator IT CHILD frontier, Some DUPLICATE)
           ∧ increase Comparator IT CHILD frontier
             ≡ₚ CHILD :: delete IT frontier)
          ∨ (path_cost DUPLICATE ≤ path_cost CHILD
             ∧ handle_child Comparator frontier CHILD = (frontier, None)))).
Proof.
  destruct (handle_child_branches frontier CHILD)
    as [[Hno Heq] | (IT & DUP & Hfind & Hlook & Hst & [[Hlt Heq] | Hkeep])].
  - left. split; [done|]. split; [done|]. apply pq_push_perm.
  - right. exists IT, DUP. do 3 (split; [done|]). left.
    split; [done|]. split; [done|]. apply increase_perm.
  - right. exists IT, DUP. do 3 (split; [done|]). by right.
Qed.

Lemma filter_delete_other (s : State) (fr : list Node) (i : nat) (n : Node) :
  fr !! i = Some n → state n = s →
  filter (λ m, state m ≠ s) (delete i fr) = filter (λ m, state m ≠ s) fr.
Proof.
  intros Hi Hs. destruct (delete_take_drop_middle fr i n Hi) as [Hfr ->].
  rewrite Hfr at 3. rewrite !filter_app, filter_cons_False; [done|].
  intros Hne. by apply Hne.
Qed.

(** C10: [handle_child] leaves every entry of another state where it was
    (the entries whose state is not the candidate's are the same list
    before and after), and the frontier grows by one entry when the
    candidate is pushed and keeps its size when an entry is replaced or
    the candidate is dropped. *)
Theorem handle_child_frame (frontier : list Node) (CHILD : Node) :
  let frontier' := (handle_child Comparator frontier CHILD).1 in
  filter (λ n, state n ≠ state CHILD) frontier'
    = filter (λ n, state n ≠ state CHILD) frontier
  ∧ (state CHILD ∉ (state <$> frontier) →
     length frontier' = S (length frontier))
  ∧ (state CHILD ∈ (state <$> frontier) →
     length frontier' = length frontier).
Proof.
  destruct (handle_child_branches frontier CHILD)
    as [[Hno ->] | (IT & DUP & Hfind & Hlook & Hst & [[Hlt ->] | [Hge ->]])];
    simpl.
  - split; [|split].
    + apply filter_pq_push. intros Hne. by apply Hne.
    + intros _. apply length_pq_push.
    + done.
  - split; [|split].
    + unfold increase. rewrite filter_pq_push by (intros Hne; by apply Hne).
      by apply (filter_delete_other _ _ _ DUP).
    + intros Hno. exfalso. apply Hno, list_elem_of_fmap. exists DUP.
      split; [done|]. by eapply list_elem_of_lookup_2.
    + intros _. unfold increase. rewrite length_pq_push, length_delete.
      * apply lookup_lt_Some in Hlook. lia.
      * by eexists.
  - split; [done|]. split; [|done].
    intros Hno. exfalso. apply Hno, list_elem_of_fmap. exists DUP.
    split; [done|]. by eapply list_elem_of_lookup_2.
Qed.
End HandleChild.

(** ** Graph search *)

Section GraphSearch.
Context {State Action : Type} `{Countable State} `{Inhabited Action}.
Local Abbreviation Node := (Node State Action).
Local Abbreviation Problem := (Problem State Action).
Local Abbreviation gconfig := (gconfig State Action).
Variable Comparator : Node → Node → bool.
Variable P : Problem.

Lemma handle_child_states_perm (fr : list Node) (CHILD : Node) :
  let fr' := (handle_child Comparator fr CHILD).1 in
  fr' = fr
  ∨ ((state CHILD ∉ (state <$> fr)) ∧ fr' ≡ₚ CHILD :: fr)
  ∨ (∃ IT DUP, fr !! IT = Some DUP ∧ state DUP = state CHILD
               ∧ fr' ≡ₚ CHILD :: delete IT fr).
Proof.
  destruct (handle_child_branches Comparator fr CHILD)
    as [[Hno ->] | (IT & DUP & _ & Hlook & Hst & [[_ ->] | [_ ->]])]; simpl.
  - right; left. split; [done|]. apply pq_push_perm.
  - right; right. exists IT, DUP. repeat split; try done.
    apply increase_perm.
  - by left.
Qed.

Lemma handle_child_NoDup (fr : list Node) (CHILD : Node) :
  NoDup (state <$> fr) →
  NoDup (state <$> (handle_child Comparator fr CHILD).1).
Proof.
  intros Hnd.
  destruct (handle_child_states_perm fr CHILD)
    as [-> | [[Hno ->] | (IT & DUP & Hlook & Hst & ->)]]; [done| |].
  - rewrite fmap_cons. by apply NoDup_cons.
  - destruct (delete_take_drop_middle fr IT DUP Hlook) as [Hfr ->].
    rewrite Hfr in Hnd. rewrite fmap_cons, <- Hst.
    revert Hnd. rewrite !fmap_app, fmap_cons.
    by rewrite <- Permutation_middle.
Qed.

Lemma handle_child_elem_of (fr : list Node) (CHILD n : Node) :
  n ∈ (handle_child Comparator fr CHILD).1 → n = CHILD ∨ n ∈ fr.
Proof.
  destruct (handle_child_states_perm fr CHILD)
    as [-> | [[Hno ->] | (IT & DUP & Hlook & Hst & ->)]].
  - by right.
  - by rewrite elem_of_cons.
  - rewrite elem_of_cons. intros [->|Hn]; [by left | right].
    by eapply list_elem_of_delete_inv.
Qed.

(** A successor that is in the closed set is skipped: no child is built
    and the frontier is not touched. *)
Lemma expand_action_closed (S_ : Node) (cl : gset State) (fr : list Node)
    (ACTION : Action) :
  result P (state S_) ACTION ∈ cl →
  expand_action Comparator P S_ cl fr ACTION = fr.
Proof. intros Hin. unfold expand_action. by rewrite decide_True. Qed.

Lemma expand_action_open (S_ : Node) (cl : gset State) (fr : list Node)
    (ACTION : Action) :
  result P (state S_) ACTION ∉ cl →
  expand_action Comparator P S_ cl fr ACTION
  = (handle_child Comparator fr
       (child3 P S_ ACTION (result P (state S_) ACTION))).1.
Proof. intros Hin. unfold expand_action. by rewrite decide_False. Qed.

Lemma expand_action_ok (S_ : Node) (cl : gset State) (fr : list Node)
    (ACTION : Action) :
  frontier_ok cl fr →
  frontier_ok cl (expand_action Comparator P S_ cl fr ACTION).
Proof.
  intros [Hnd Hcl].
  destruct (decide (result P (state S_) ACTION ∈ cl)) as [Hin|Hout].
  - by rewrite expand_action_closed.
  - rewrite expand_action_open by done. split.
    + by apply handle_child_NoDup.
    + intros n [->|Hn]%handle_child_elem_of; [done | by apply Hcl].
Qed.

Lemma expand_ok (S_ : Node) (cl : gset State) (acts : list Action)
    (fr : list Node) :
  frontier_ok cl fr → frontier_ok cl (expand Comparator P S_ cl fr acts).
Proof.
  revert fr. induction acts as [|a acts IH]; intros fr Hok; [done|].
  apply IH. by apply expand_action_ok.
Qed.

Lemma expand_elem_of (S_ : Node) (cl : gset State) (acts : list Action)
    (fr : list Node) (n : Node) :
  n ∈ expand Comparator P S_ cl fr acts →
  n ∈ fr ∨ ∃ a, n = child3 P S_ a (result P (state S_) a).
Proof.
  revert fr. induction acts as [|a acts IH]; intros fr; [by left|].
  intros [Hn | Hn]%IH; [|by right].
  destruct (decide (result P (state S_) a ∈ cl)) as [Hin|Hout].
  - rewrite expand_action_closed in Hn by done. by left.
  - rewrite expand_action_open in Hn by done.
    apply handle_child_elem_of in Hn as [-> | Hn];
      [right; by exists a | by left].
Qed.

Lemma ancestors_unfold (n : Node) :
  ancestors n = n :: match parent n with
                     | Some p => ancestors p
                     | None => []
                     end.
Proof. by destruct n. Qed.

(** Induction along the parent reference. *)
Lemma Node_parent_ind (Q : Node → Prop) :
  (∀ s a c, Q (mkNode s None a c)) →
  (∀ s p a c, Q p → Q (mkNode s (Some p) a c)) →
  ∀ n, Q n.
Proof.
  intros Hroot Hchild. fix IH 1. intros [s [p|] a c].
  - apply Hchild, IH.
  - apply Hroot.
Qed.

Lemma unravel_ancestors (n : Node) (path : list State) :
  unravel path n = path ++ (state <$> ancestors n).
Proof.
  revert path. induction n as [s a c | s p a c IH] using Node_parent_ind;
    intros path; simpl; [done|].
  rewrite IH. by rewrite <- app_assoc.
Qed.

(** Each element of the chain after the first is the parent of the one
    before it, and the last one has no parent. *)
Lemma ancestors_chain (n : Node) :
  head (ancestors n) = Some n
  ∧ (∀ i m p, ancestors n !! i = Some m → parent m = Some p →
              ancestors n !! S i = Some p)
  ∧ (∀ m, last (ancestors n) = Some m → parent m = None).
Proof.
  induction n as [s a c | s p a c (IHh & IHs & IHl)] using Node_parent_ind.
  - split; [done|]. split.
    + intros [|i] m q Hm Hp; simpl in *; [|done].
      injection Hm as <-. done.
    + intros m [= <-]. done.
  - split; [done|]. split.
    + intros [|i] m q Hm Hp.
      * simpl in Hm. injection Hm as <-. simpl in Hp. injection Hp as <-.
        simpl. rewrite <- head_lookup. done.
      * simpl in Hm. change (ancestors p !! S i = Some q).
        by eapply IHs.
    + intros m Hm. apply IHl. rewrite <- Hm.
      rewrite (ancestors_unfold (mkNode _ _ _ _)). simpl.
      rewrite (ancestors_unfold p). done.
Qed.

Lemma rooted_root : rooted P (root P).
Proof. done. Qed.

Lemma rooted_child3 (S_ : Node) (a : Action) (s : State) :
  rooted P S_ → rooted P (child3 P S_ a s).
Proof.
  unfold rooted. intros HS. simpl. rewrite (ancestors_unfold S_) in *.
  done.
Qed.

Lemma expand_rooted (S_ : Node) (cl : gset State) (acts : list Action)
    (fr : list Node) :
  rooted P S_ → Forall (rooted P) fr →
  Forall (rooted P) (expand Comparator P S_ cl fr acts).
Proof.
  intros HS Hfr. apply Forall_forall.
  intros n [Hn | [a ->]]%expand_elem_of.
  - by eapply Forall_forall in Hfr.
  - by apply rooted_child3.
Qed.

Lemma graph_inv_post (c : gconfig) : graph_inv P c → graph_post P c.
Proof.
  intros (Hpop & Hfr & Hcl & Hgoal & _).
  split; [done|]. split; [done|]. split.
  - intros s Hs _. by apply Hcl.
  - intros s Hs. split; [by apply Hcl|].
    rewrite Forall_forall in Hgoal. by apply Hgoal, Hcl.
Qed.

Lemma graph_inv_init : graph_inv P (graph_init Comparator P).
Proof.
  split; [apply NoDup_nil_2|]. split; [|split; [|split]]; simpl.
  - split; simpl; [apply NoDup_singleton | set_solver].
  - set_solver.
  - done.
  - apply Forall_singleton, rooted_root.
Qed.

Lemma graph_step_inv (c c' : gconfig)
    (o : option (outcome (list State * Z))) :
  graph_inv P c → graph_step Comparator P c = (c', o) →
  graph_post P c' ∧ (o = None → graph_inv P c').
Proof.
  intros Hinv. pose proof Hinv as (Hpop & [Hnd Hdisj] & Hcl & Hgoal & Hroot).
  unfold graph_step. destruct (frontier c) as [|S_ fr] eqn:Hfr; simpl.
  { intros [= <- <-]. split; [by apply graph_inv_post | done]. }
  rewrite fmap_cons in Hnd. apply NoDup_cons in Hnd as [HS Hnd].
  apply Forall_cons in Hroot as [HrS Hroot].
  assert (state S_ ∉ popped c) as Hnew.
  { rewrite <- Hcl. apply Hdisj. by left. }
  assert (NoDup (popped c ++ [state S_])) as Hpop'.
  { apply NoDup_app. split; [done|]. split; [|apply NoDup_singleton].
    intros s Hs ->%list_elem_of_singleton. done. }
  destruct (goal_test P (state S_)) eqn:Hg; intros [= <- <-].
  - split; [|done]. repeat split; simpl; try done.
    + intros n Hn. apply Hdisj. by right.
    + intros s [Hs | ->%list_elem_of_singleton]%elem_of_app Hf.
      * by apply Hcl.
      * congruence.
    + apply elem_of_app. left. by apply Hcl.
    + rewrite Forall_forall in Hgoal. by apply Hgoal, Hcl.
  - assert (graph_inv P
      (mkG (expand Comparator P S_ ({[state S_]} ∪ closed c) fr
              (actions P (state S_)))
           ({[state S_]} ∪ closed c) (popped c ++ [state S_]))) as Hinv'.
    { split; [done|]. split; [|split; [|split]]; simpl.
      - apply expand_ok. split; [done|].
        intros n Hn [Heq%elem_of_singleton | Hin]%elem_of_union.
        + apply HS, list_elem_of_fmap. by exists n.
        + eapply Hdisj; [|done]. by right.
      - intros s. rewrite elem_of_union, elem_of_singleton, elem_of_app,
          list_elem_of_singleton, Hcl. tauto.
      - apply Forall_app. split; [done | by apply Forall_singleton].
      - by apply expand_rooted. }
    split; [by apply graph_inv_post | done].
Qed.

Lemma graph_run_inv (k : nat) :
  let run := graph_run Comparator P k (graph_init Comparator P) in
  graph_post P run.1 ∧ (run.2 = None → graph_inv P run.1).
Proof.
  apply (while_loop_invariant _ (graph_inv P) (graph_post P)).
  - apply graph_inv_post.
  - intros c c' o. apply graph_step_inv.
  - apply graph_inv_init.
Qed.

(** C5: in a run of graph search no state is taken from the frontier
    twice.  After any number of iterations: the states popped so far are
    pairwise distinct; each popped state that is no goal is in the closed
    set; the frontier holds at most one entry per state, and none for a
    closed state.  While a node is expanded, a successor found in the
    closed set leaves the frontier as it is, without a child being built
    or handed to [handle_child], and after each action handled the
    frontier still holds at most one entry per state. *)
Theorem graph_search_expands_once (k : nat) :
  let c := (graph_run Comparator P k (graph_init Comparator P)).1 in
  NoDup (popped c)
  ∧ (∀ s, s ∈ popped c → goal_test P s = false → s ∈ closed c)
  ∧ NoDup (state <$> frontier c)
  ∧ (∀ n, n ∈ frontier c → state n ∉ closed c)
  ∧ (∀ S_ cl fr ACTION,
       result P (state S_) ACTION ∈ cl →
       expand_action Comparator P S_ cl fr ACTION = fr)
  ∧ (∀ S_ fr acts1 acts2,
       (graph_run Comparator P k (graph_init Comparator P)).2 = None →
       pop (frontier c) = Some (S_, fr) →
       actions P (state S_) = acts1 ++ acts2 →
       NoDup (state <$>
                expand Comparator P S_ ({[state S_]} ∪ closed c) fr acts1)).
Proof.
  intros c. destruct (graph_run_inv k) as [(Hpop & [Hnd Hdisj] & Hcl & _) Hrun].
  fold c in Hpop, Hnd, Hdisj, Hcl, Hrun.
  repeat split; try done.
  - intros S_ cl fr ACTION. apply expand_action_closed.
  - intros S_ fr acts1 acts2 Hnone Hpopf _.
    destruct (Hrun Hnone) as (_ & [Hnd' Hdisj'] & _). fold c in Hnd', Hdisj'.
    destruct (frontier c) as [|S' fr'] eqn:Hfr; [done|].
    injection Hpopf as -> ->.
    rewrite fmap_cons in Hnd'. apply NoDup_cons in Hnd' as [HS Hnd'].
    apply expand_ok. split; [done|].
    intros n Hn [Heq%elem_of_singleton | Hin]%elem_of_union.
    + apply HS, list_elem_of_fmap. by exists n.
    + eapply Hdisj'; [|done]. by right.
Qed.

Lemma graph_step_goal (c : gconfig) (S_ : Node) :
  pq_top (frontier c) = Some S_ →
  goal_test P (state S_) = true →
  ∃ c', graph_step Comparator P c
        = (c', Some (Returns (state <$> ancestors S_, path_cost S_))).
Proof.
  unfold graph_step. destruct (frontier c) as [|S' fr]; [done|].
  intros [= ->] Hg. simpl. rewrite Hg. eexists.
  by rewrite unravel_ancestors.
Qed.

(** C6: when graph search takes from the frontier a node [S_] whose state
    passes the goal test, it returns; the states written to the sink are
    those of the parent chain of [S_], one per node, [S_] first and the
    initial state last, and the value returned is the path cost of
    [S_]. *)
Theorem graph_search_goal_output (k fuel : nat) (c : gconfig) (S_ : Node) :
  graph_run Comparator P k (graph_init Comparator P) = (c, None) →
  pq_top (frontier c) = Some S_ →
  goal_test P (state S_) = true →
  (k < fuel)%nat →
  best_first_search Comparator P fuel
    = Some (Returns (state <$> ancestors S_, path_cost S_))
  ∧ head (ancestors S_) = Some S_
  ∧ (∀ i m p, ancestors S_ !! i = Some m → parent m = Some p →
              ancestors S_ !! S i = Some p)
  ∧ (∀ m, last (ancestors S_) = Some m → parent m = None)
  ∧ last (state <$> ancestors S_) = Some (initial P).
Proof.
  intros Hrun Htop Hg Hk.
  destruct (graph_step_goal c S_ Htop Hg) as [c' Hstep].
  split.
  { unfold best_first_search, graph_run.
    by rewrite (while_loop_finish _ k fuel _ c c' _ Hrun Hstep Hk). }
  destruct (ancestors_chain S_) as (Hh & Hs & Hl).
  split; [done|]. split; [done|]. split; [done|].
  pose proof (graph_run_inv k) as [_ Hinv]. simpl in Hinv.
  rewrite Hrun in Hinv. destruct (Hinv eq_refl) as (_ & _ & _ & _ & Hroot).
  simpl in Hroot.
  destruct (frontier c) as [|S' fr]; [done|]. injection Htop as ->.
  by apply Forall_cons in Hroot as [HrS _].
Qed.

Lemma graph_step_throws (c c' : gconfig) :
  graph_step Comparator P c = (c', Some Throws_goal_not_found) ↔
  frontier c = [] ∧ c' = c.
Proof.
  unfold graph_step. destruct (frontier c) as [|S' fr]; simpl.
  - split; [by intros [= <-] | by intros [_ ->]].
  - split; [|by intros [? _]].
    by destruct (goal_test P (state S')).
Qed.

(** Graph search throws exactly when some iteration finds the frontier
    empty, no state popped before having passed the goal test. *)
Lemma graph_search_throws (fuel : nat) :
  best_first_search Comparator P fuel = Some Throws_goal_not_found ↔
  ∃ k c, (k < fuel)%nat
         ∧ graph_run Comparator P k (graph_init Comparator P) = (c, None)
         ∧ frontier c = []
         ∧ Forall (λ s, goal_test P s = false) (popped c).
Proof.
  unfold best_first_search, graph_run. split.
  - destruct (while_loop _ fuel _) as [c' o] eqn:Hrun. simpl. intros ->.
    apply while_loop_finished in Hrun as (k & c & Hk & Hrun & Hstep).
    apply graph_step_throws in Hstep as [Hfr ->].
    exists k, c. repeat split; try done.
    pose proof (graph_run_inv k) as [_ Hinv]. simpl in Hinv.
    unfold graph_run in Hinv. rewrite Hrun in Hinv.
    by destruct (Hinv eq_refl) as (_ & _ & _ & Hgoal & _).
  - intros (k & c & Hk & Hrun & Hfr & _).
    assert (graph_step Comparator P c = (c, Some Throws_goal_not_found))
      as Hstep by by apply graph_step_throws.
    by rewrite (while_loop_finish _ k fuel _ c c _ Hrun Hstep Hk).
Qed.
End GraphSearch.

Section GraphSearchRoot.
Context {State Action : Type} `{Countable State} `{Inhabited Action}.
Variable Comparator : Node State Action → Node State Action → bool.

(** C9: if the initial state passes the goal test, graph search returns
    path cost 0 and writes the initial state and nothing else.  The closed
    set is still empty then, the root is the one node that was popped, and
    the outcome is the same whatever the policies for actions, results and
    step costs are: none of them is consulted. *)
Theorem graph_search_initial_goal (init : State) (gt : State → bool)
    (acts : State → list Action) (res : State → Action → State)
    (sc : State → Action → State → Z) (fuel : nat) :
  gt init = true →
  let P := mkProblem init gt acts res sc in
  best_first_search Comparator P (S fuel) = Some (Returns ([init], 0))
  ∧ graph_run Comparator P (S fuel) (graph_init Comparator P)
    = (mkG [] ∅ [init], Some (Returns ([init], 0))).
Proof.
  intros Hg P. unfold best_first_search, graph_run. simpl.
  unfold graph_step. simpl. by rewrite Hg.
Qed.
End GraphSearchRoot.

(** ** Tree search *)

Section TreeSearch.
Context {State Action : Type} `{Inhabited Action}.
Local Abbreviation Node := (Node State Action).
Local Abbreviation tconfig := (tconfig State Action).
Variable Comparator : Node → Node → bool.
Variable P : Problem State Action.

Lemma tree_step_throws (c c' : tconfig) :
  tree_step Comparator P c = (c', Some Throws_goal_not_found) ↔
  tfrontier c = [] ∧ c' = c.
Proof.
  unfold tree_step. destruct (tfrontier c) as [|S' fr]; simpl.
  - split; [by intros [= <-] | by intros [_ ->]].
  - split; [|by intros [? _]].
    by destruct (goal_test P (state S')).
Qed.

Lemma tree_step_popped (c c' : tconfig) (o : option (outcome Node)) :
  Forall (λ s, goal_test P s = false) (tpopped c) →
  tree_step Comparator P c = (c', o) →
  o = None → Forall (λ s, goal_test P s = false) (tpopped c').
Proof.
  intros Hall. unfold tree_step.
  destruct (tfrontier c) as [|S' fr]; simpl; [by intros [= <- <-]|].
  destruct (goal_test P (state S')) eqn:Hg; intros [= <- <-]; [done|].
  intros _. simpl. apply Forall_app. split; [done|].
  by apply Forall_singleton.
Qed.

(** Tree search throws exactly when some iteration finds the frontier
    empty, no state popped before having passed the goal test. *)
Lemma tree_search_throws (fuel : nat) :
  best_first_search_tree Comparator P fuel = Some Throws_goal_not_found ↔
  ∃ k c, (k < fuel)%nat
         ∧ tree_run Comparator P k (tree_init Comparator P) = (c, None)
         ∧ tfrontier c = []
         ∧ Forall (λ s, goal_test P s = false) (tpopped c).
Proof.
  unfold best_first_search_tree, tree_run. split.
  - destruct (while_loop _ fuel _) as [c' o] eqn:Hrun. simpl. intros ->.
    apply while_loop_finished in Hrun as (k & c & Hk & Hrun & Hstep).
    apply tree_step_throws in Hstep as [Hfr ->].
    exists k, c. repeat split; try done.
    pose proof (while_loop_invariant (tree_step Comparator P)
      (λ c, Forall (λ s, goal_test P s = false) (tpopped c))
      (λ _, True)) as Hinv.
    destruct (Hinv (λ _ _, I)
      (λ c c' o Hc Hs, conj I (tree_step_popped c c' o Hc Hs))
      k (tree_init Comparator P)) as [_ Hk']; [done|].
    rewrite Hrun in Hk'. by apply Hk'.
  - intros (k & c & Hk & Hrun & Hfr & _).
    assert (tree_step Comparator P c = (c, Some Throws_goal_not_found))
      as Hstep by by apply tree_step_throws.
    by rewrite (while_loop_finish _ k fuel _ c c _ Hrun Hstep Hk).
Qed.
End TreeSearch.

(** ** Recursive best-first search *)

Section RBFSFacts.
Context {State Action : Type}.
Local Abbreviation Node := (Node State Action).
Local Abbreviation NodeCost := (@recursive.NodeCost State Action).
Local Abbreviation Call := (@recursive.Call State Action).
Local Abbreviation SearchResult := (@recursive.SearchResult State Action).
Variable f : Node → Z.
Variable split : Node → Node → bool.
Variable INF : Z.
Local Abbreviation NodeCost_lt := (recursive.NodeCost_lt split).
Local Abbreviation cost := recursive.cost.
Local Abbreviation node := recursive.node.
Local Abbreviation cost_sorted := recursive.cost_sorted.
Local Abbreviation rbfs_while := (recursive.rbfs_while split INF).
Local Abbreviation rbfs := (recursive.recursive_best_first_search f split INF).
Local Abbreviation make_children := (recursive.make_children f split).
Local Abbreviation child_entry := (recursive.child_entry f).
Local Abbreviation call_ok := (recursive.call_ok f INF).
Local Abbreviation ret_ok := (recursive.ret_ok INF).
Local Abbreviation second_best_cost := (recursive.second_best_cost INF).

Lemma NodeCost_lt_true (a b : NodeCost) :
  NodeCost_lt a b = true → cost b ≤ cost a.
Proof.
  unfold recursive.NodeCost_lt.
  destruct (Z.eqb_spec (cost a) (cost b)); [lia|].
  destruct (Z.gtb_spec (cost a) (cost b)); [lia | done].
Qed.

Lemma NodeCost_lt_false (a b : NodeCost) :
  NodeCost_lt a b = false → cost a ≤ cost b.
Proof.
  unfold recursive.NodeCost_lt.
  destruct (Z.eqb_spec (cost a) (cost b)); [lia|].
  destruct (Z.gtb_spec (cost a) (cost b)); [done | lia].
Qed.

(** Whatever the tie policy answers, a push keeps the ascending order of
    the stored costs. *)
Lemma pq_push_cost_sorted (x : NodeCost) (q : list NodeCost) :
  cost_sorted q → cost_sorted (pq_push NodeCost_lt x q).
Proof.
  unfold recursive.cost_sorted.
  induction q as [|y q IH]; intros Hq; simpl.
  - by repeat constructor.
  - apply StronglySorted_inv in Hq as [Hq Hy].
    destruct (NodeCost_lt y x) eqn:Hlt.
    + apply NodeCost_lt_true in Hlt.
      constructor; [by constructor|].
      constructor; [done|].
      eapply Forall_impl; [done|]. simpl. intros z Hz. lia.
    + apply NodeCost_lt_false in Hlt.
      constructor; [by apply IH|].
      rewrite pq_push_perm. by constructor.
Qed.

Lemma foldl_pq_push_perm {B : Type} (h : B → NodeCost) (l : list B)
    (acc : list NodeCost) :
  foldl (λ ch b, pq_push NodeCost_lt (h b) ch) acc l ≡ₚ (h <$> l) ++ acc.
Proof.
  revert acc. induction l as [|b l IH]; intros acc; simpl; [done|].
  rewrite IH, pq_push_perm. by rewrite Permutation_middle.
Qed.

Lemma foldl_pq_push_sorted {B : Type} (h : B → NodeCost) (l : list B)
    (acc : list NodeCost) :
  cost_sorted acc →
  cost_sorted (foldl (λ ch b, pq_push NodeCost_lt (h b) ch) acc l).
Proof.
  revert acc. induction l as [|b l IH]; intros acc Hacc; simpl; [done|].
  by apply IH, pq_push_cost_sorted.
Qed.

Lemma make_children_perm (P : Problem State Action) (NODE : Node)
    (F_N : Z) :
  make_children P NODE F_N
  ≡ₚ child_entry P NODE F_N <$> actions P (state NODE).
Proof.
  unfold recursive.make_children.
  rewrite (foldl_pq_push_perm (child_entry P NODE F_N)).
  by rewrite app_nil_r.
Qed.

Lemma make_children_sorted (P : Problem State Action) (NODE : Node)
    (F_N : Z) :
  cost_sorted (make_children P NODE F_N).
Proof.
  apply (foldl_pq_push_sorted (child_entry P NODE F_N)). constructor.
Qed.

Lemma child_entry_cost (P : Problem State Action) (NODE : Node) (F_N : Z)
    (a : Action) :
  f (node (child_entry P NODE F_N a)) ≤ cost (child_entry P NODE F_N a).
Proof. unfold recursive.child_entry. simpl. case_match; lia. Qed.

Lemma best_le_bound (BEST : NodeCost) (it : list NodeCost) (B : Z) :
  cost_sorted (BEST :: it) → cost BEST ≤ B → cost BEST < INF →
  cost BEST ≤ Z.min B (second_best_cost it).
Proof.
  intros [_ Hall]%StronglySorted_inv HB HI.
  destruct it as [|sb it]; simpl; [lia|].
  apply Forall_cons in Hall as [Hsb _]. lia.
Qed.

Section While.
Variable rec : Node → Z → Z → option (SearchResult * list Call).
Hypothesis rec_ok : ∀ N F B r tr,
  rec N F B = Some (r, tr) → ret_ok B r ∧ Forall call_ok tr.

Lemma rbfs_while_ok (fuel : nat) :
  ∀ (children : list NodeCost) (B : Z) r tr,
    cost_sorted children →
    Forall (λ nc, f (node nc) ≤ cost nc) children →
    rbfs_while rec fuel children B = Some (r, tr) →
    ret_ok B r ∧ Forall call_ok tr.
Proof.
  induction fuel as [|fuel IH]; intros children B r tr Hs Hf; [done|].
  simpl. destruct children as [|BEST it]; [done|].
  apply Forall_cons in Hf as [HfB Hf].
  destruct (Z.leb_spec (cost BEST) B) as [HB|HB]; simpl;
    [destruct (Z.ltb_spec (cost BEST) INF) as [HI|HI]; simpl|].
  - pose proof (best_le_bound BEST it B Hs HB HI) as Hbound.
    destruct (rec _ _ _) as [[RESULT tr1]|] eqn:Hrec; [|done].
    destruct (rec_ok _ _ _ _ _ Hrec) as [Hret Htr1].
    assert (call_ok (recursive.mkCall (node BEST) (cost BEST)
              (Z.min B (second_best_cost it)))) as Hcall by done.
    destruct RESULT as [[goal|] c]; simpl.
    + intros [= <- <-]. split; [done | by constructor].
    + destruct (rbfs_while _ _ _ _) as [[R tr']|] eqn:Hloop; [|done].
      intros [= <- <-].
      assert (cost BEST < c) as Hc.
      { destruct (Hret eq_refl) as [?|?]; simpl in *; lia. }
      apply IH in Hloop as [HR Htr'].
      * split; [done|]. constructor; [done|]. by apply Forall_app.
      * apply pq_push_cost_sorted.
        by apply StronglySorted_inv in Hs as [Hs _].
      * rewrite pq_push_perm. constructor; [simpl; lia | done].
  - intros [= <- <-]. split; [|done]. intros _. simpl. lia.
  - intros [= <- <-]. split; [|done]. intros _. simpl. lia.
Qed.

Hypothesis rec_mono : ∀ N F B r tr,
  rec N F B = Some (r, tr) → Forall (λ c, F ≤ recursive.call_F c) tr.

Lemma rbfs_while_mono (lo : Z) (fuel : nat) :
  ∀ (children : list NodeCost) (B : Z) r tr,
    Forall (λ nc, lo ≤ cost nc) children →
    rbfs_while rec fuel children B = Some (r, tr) →
    Forall (λ c, lo ≤ recursive.call_F c) tr.
Proof.
  induction fuel as [|fuel IH]; intros children B r tr Hlo; [done|].
  simpl. destruct children as [|BEST it]; [done|].
  apply Forall_cons in Hlo as [HloB Hlo].
  destruct (Z.leb_spec (cost BEST) B) as [HB|HB]; simpl;
    [destruct (Z.ltb_spec (cost BEST) INF) as [HI|HI]; simpl|];
    [|by intros [= <- <-]..].
  destruct (rec _ _ _) as [[RESULT tr1]|] eqn:Hrec; [|done].
  destruct (rec_ok _ _ _ _ _ Hrec) as [Hret _].
  pose proof (rec_mono _ _ _ _ _ Hrec) as Htr1.
  assert (Forall (λ c, lo ≤ recursive.call_F c) tr1) as Htr1'.
  { eapply Forall_impl; [done|]. simpl. intros c0 Hc0. lia. }
  destruct RESULT as [[goal|] c]; simpl.
  - intros [= <- <-]. by constructor.
  - destruct (rbfs_while _ _ _ _) as [[R tr']|] eqn:Hloop; [|done].
    intros [= <- <-].
    apply IH in Hloop.
    + constructor; [done|]. by apply Forall_app.
    + rewrite pq_push_perm. constructor; [|done]. simpl.
      assert (lo ≤ second_best_cost it).
      { destruct it as [|sb it']; simpl; [lia|].
        by apply Forall_cons in Hlo as [? _]. }
      destruct (Hret eq_refl) as [?|?]; simpl in *; lia.
Qed.
End While.

Variable P : Problem State Action.

Lemma rbfs_ok (fuel : nat) :
  ∀ NODE F_N B r tr,
    rbfs P fuel NODE F_N B = Some (r, tr) →
    ret_ok B r ∧ Forall call_ok tr.
Proof.
  induction fuel as [|fuel IH]; intros NODE F_N B r tr; [done|].
  simpl. destruct (Z.gtb_spec (f NODE) B) as [Hgt|Hle].
  { intros [= <- <-]. split; [|done]. intros _. simpl. lia. }
  destruct (goal_test P (state NODE)).
  { intros [= <- <-]. split; [|done]. by intros [=]. }
  destruct (actions P (state NODE)) as [|a acts] eqn:Hacts.
  { intros [= <- <-]. split; [|done]. intros _. simpl. lia. }
  apply (rbfs_while_ok _ IH).
  - apply make_children_sorted.
  - rewrite make_children_perm. apply Forall_fmap, Forall_forall.
    intros b _. apply child_entry_cost.
Qed.

Section Bounded.
(** [INF] bounds [f]: it is the largest value of the type of [f]. *)
Hypothesis f_bounded : ∀ n, f n ≤ INF.

Lemma rbfs_while_bounded
    (rec : Node → Z → Z → option (SearchResult * list Call)) :
  (∀ N F B c tr, F ≤ INF → rec N F B = Some ((None, c), tr) → c ≤ INF) →
  ∀ (fuel : nat) (children : list NodeCost) (B : Z) c tr,
    Forall (λ nc, cost nc ≤ INF) children →
    rbfs_while rec fuel children B = Some ((None, c), tr) →
    c ≤ INF.
Proof.
  intros Hrec.
  induction fuel as [|fuel IH]; intros children B c tr Hle; [done|].
  simpl. destruct children as [|BEST it]; [done|].
  apply Forall_cons in Hle as [HB Hle].
  destruct (_ && _); [|by intros [= <- <-]].
  destruct (rec _ _ _) as [[[[goal|] c1] tr1]|] eqn:Hrun; [done| |done].
  simpl. destruct (rbfs_while _ _ _ _) as [[R tr']|] eqn:Hloop; [|done].
  intros [= -> <-]. eapply IH; [|done].
  rewrite pq_push_perm. constructor; [|done]. simpl. by eapply Hrec.
Qed.

(** With [f] and the argument F_N within [INF], a call that returns no
    goal returns a cost within [INF]. *)
Lemma rbfs_bounded (fuel : nat) :
  ∀ NODE F_N B c tr,
    F_N ≤ INF →
    rbfs P fuel NODE F_N B = Some ((None, c), tr) → c ≤ INF.
Proof.
  induction fuel as [|fuel IH]; intros NODE F_N B c tr HF; [done|].
  simpl. destruct (f NODE >? B).
  { intros [= <- <-]. apply f_bounded. }
  destruct (goal_test P (state NODE)); [done|].
  destruct (actions P (state NODE)) as [|a acts] eqn:Hacts.
  { by intros [= <- <-]. }
  apply (rbfs_while_bounded _ IH).
  rewrite make_children_perm. apply Forall_fmap, Forall_forall.
  intros b _. unfold recursive.child_entry. simpl.
  pose proof (f_bounded NODE). pose proof (f_bounded (child P NODE b)).
  case_match; lia.
Qed.
End Bounded.

(** C1, as the code has it: a call that returns no goal returns a cost
    above its bound B or at least [INF], hence above B whenever B is below
    [INF]; and every recursive call made during it, at any depth, is made
    on a child whose stored cost is within the bound handed to that
    call.  When [INF] bounds [f] and the argument F_N (it is the largest
    value of the cost type), a call that returns no goal returns at most
    [INF]: with B = [INF] it returns exactly [INF], which equals B. *)
Theorem rbfs_bound_invariant (fuel : nat) (NODE : Node) (F_N B : Z)
    (r : SearchResult) (tr : list Call) :
  rbfs P fuel NODE F_N B = Some (r, tr) →
  (r.1 = None → (B < r.2 ∨ INF ≤ r.2) ∧ (B < INF → B < r.2))
  ∧ Forall (λ c, recursive.call_F c ≤ recursive.call_B c) tr
  ∧ ((∀ n, f n ≤ INF) → F_N ≤ INF → r.1 = None →
     r.2 ≤ INF ∧ (B = INF → r.2 = INF)).
Proof.
  intros Hrun. pose proof Hrun as [Hret Htr]%rbfs_ok. split; [|split].
  - intros Hnone. destruct (Hret Hnone); split; (by left) || (by right) || lia.
  - eapply Forall_impl; [done|]. by intros c (? & _).
  - intros Hf HF Hnone. destruct r as [goal c]. simpl in *. subst goal.
    pose proof (rbfs_bounded Hf fuel _ _ _ _ _ HF Hrun) as Hle.
    split; [done|]. intros ->. destruct (Hret eq_refl); simpl in *; lia.
Qed.

Lemma child_entry_lower (NODE : Node) (F_N : Z) (a : Action) :
  f NODE < F_N ∨ f NODE ≤ f (child P NODE a) →
  F_N ≤ cost (child_entry P NODE F_N a).
Proof.
  unfold recursive.child_entry. simpl.
  destruct (Z.ltb_spec (f NODE) F_N); lia.
Qed.

Lemma elem_of_make_children (NODE : Node) (F_N : Z) (nc : NodeCost) :
  nc ∈ make_children P NODE F_N ↔
  ∃ a, a ∈ actions P (state NODE) ∧ nc = child_entry P NODE F_N a.
Proof.
  rewrite make_children_perm, list_elem_of_fmap.
  split; intros (a & ? & ?); by exists a.
Qed.

Section Monotone.
(** [f] does not decrease from a node to any of its children. *)
Hypothesis f_mono : ∀ n a,
  a ∈ actions P (state n) → f n ≤ f (child P n a).

Lemma rbfs_mono (fuel : nat) :
  ∀ NODE F_N B r tr,
    rbfs P fuel NODE F_N B = Some (r, tr) →
    Forall (λ c, F_N ≤ recursive.call_F c) tr.
Proof.
  induction fuel as [|fuel IH]; intros NODE F_N B r tr; [done|].
  simpl. destruct (f NODE >? B); [by intros [= <- <-]|].
  destruct (goal_test P (state NODE)); [by intros [= <- <-]|].
  destruct (actions P (state NODE)) as [|a acts] eqn:Hacts;
    [by intros [= <- <-]|].
  apply (rbfs_while_mono _ (rbfs_ok fuel) IH).
  apply Forall_forall. intros nc (b & Hb & ->)%elem_of_make_children.
  apply child_entry_lower. right. by apply f_mono.
Qed.
End Monotone.

(** C3, as the code has it: the children structure holds one entry per
    action, and the cost stored with a child is max(F_N, f(child)) when
    f(NODE) < F_N and f(child) otherwise.  That cost is no less than F_N
    when f(NODE) < F_N or f(NODE) <= f(child); and when [f] never
    decreases from a node to its children, every call made below a call
    with argument F_N, at any depth, is given a stored cost of at least
    F_N. *)
Theorem rbfs_propagated_cost (NODE : Node) (F_N : Z) :
  make_children P NODE F_N
    ≡ₚ child_entry P NODE F_N <$> actions P (state NODE)
  ∧ (∀ nc, nc ∈ make_children P NODE F_N →
       (∃ a, a ∈ actions P (state NODE) ∧ node nc = child P NODE a)
       ∧ cost nc = if f NODE <? F_N then Z.max F_N (f (node nc))
                   else f (node nc))
  ∧ (∀ nc, nc ∈ make_children P NODE F_N →
       f NODE < F_N ∨ f NODE ≤ f (node nc) → F_N ≤ cost nc)
  ∧ ((∀ n a, a ∈ actions P (state n) → f n ≤ f (child P n a)) →
     ∀ fuel B r tr,
       rbfs P fuel NODE F_N B = Some (r, tr) →
       Forall (λ c, F_N ≤ recursive.call_F c) tr).
Proof.
  split; [apply make_children_perm|]. split; [|split].
  - intros nc (a & Ha & ->)%elem_of_make_children. split; [|done].
    by exists a.
  - intros nc (a & Ha & ->)%elem_of_make_children.
    apply child_entry_lower.
  - intros Hmono fuel B r tr. by apply rbfs_mono.
Qed.

(** C4: one iteration of the child loop, for children in ascending order
    of stored cost ([make_children] builds them so, and each iteration
    keeps them so).  The head BEST is a child of least stored cost and
    the second-best cost is the least among the others, or [INF] when
    there are none.  If the cost of BEST is above B or not below [INF], the
    frame returns no goal with that cost.  Otherwise the recursive call is
    made on BEST with its stored cost and the bound min(B, second-best
    cost); a result with a goal is returned as it is; a result without one
    has its cost stored with BEST, the other entries staying as they are
    and the order being restored, and the loop goes on with these
    children. *)
Theorem rbfs_while_iteration
    (rec : Node → Z → Z → option (SearchResult * list Call))
    (fuel : nat) (BEST : NodeCost) (it : list NodeCost) (B : Z) :
  let bound := Z.min B (second_best_cost it) in
  let call := recursive.mkCall (node BEST) (cost BEST) bound in
  cost_sorted (BEST :: it) →
  (Forall (λ nc, cost BEST ≤ cost nc) it
   ∧ Forall (λ nc, second_best_cost it ≤ cost nc) it
   ∧ (it = [] → second_best_cost it = INF))
  ∧ (¬ (cost BEST ≤ B ∧ cost BEST < INF) →
     rbfs_while rec (S fuel) (BEST :: it) B = Some ((None, cost BEST), []))
  ∧ (cost BEST ≤ B ∧ cost BEST < INF →
     (∀ goal c tr,
        rec (node BEST) (cost BEST) bound = Some ((Some goal, c), tr) →
        rbfs_while rec (S fuel) (BEST :: it) B
        = Some ((Some goal, c), call :: tr))
     ∧ (∀ c tr,
          rec (node BEST) (cost BEST) bound = Some ((None, c), tr) →
          let children' :=
            pq_push NodeCost_lt (recursive.update_cost c BEST) it in
          children' ≡ₚ recursive.mkNodeCost (node BEST) c :: it
          ∧ cost_sorted children'
          ∧ rbfs_while rec (S fuel) (BEST :: it) B
            = match rbfs_while rec fuel children' B with
              | None => None
              | Some (R, tr') => Some (R, call :: tr ++ tr')
              end)).
Proof.
  intros bound call [Hit Hall]%StronglySorted_inv. split; [|split].
  - split; [done|]. split; [|by intros ->].
    destruct it as [|sb it']; [done|]. simpl.
    apply StronglySorted_inv in Hit as [_ Hsb].
    constructor; [simpl; lia | done].
  - intros Hno. simpl.
    destruct (Z.leb_spec (cost BEST) B); [|done].
    destruct (Z.ltb_spec (cost BEST) INF); [lia | done].
  - intros [HB HI]. simpl.
    destruct (Z.leb_spec (cost BEST) B); [|lia].
    destruct (Z.ltb_spec (cost BEST) INF); [|lia]. simpl.
    split.
    + intros goal c tr Hrec. fold bound. by rewrite Hrec.
    + intros c tr Hrec. split; [apply pq_push_perm|].
      split; [by apply pq_push_cost_sorted|].
      fold bound. by rewrite Hrec.
Qed.
End RBFSFacts.

(** ** The entry point of the recursion, and failure *)

Section Entry.
Context {State Action : Type} `{Countable State} `{Inhabited Action}.
Local Abbreviation Node := (Node State Action).
Variable Comparator : Node → Node → bool.
Variable f : Node → Z.
Variable split : Node → Node → bool.
Variable INF : Z.
Variable P : Problem State Action.
Local Abbreviation rbfs := (recursive.recursive_best_first_search f split INF).
Local Abbreviation rbfs_while := (recursive.rbfs_while split INF).

(** The entry point throws exactly when the first call, on the root with
    F_N = f(root) and B = [INF], returns no goal. *)
Lemma rbfs_entry_throws (fuel : nat) :
  recursive_best_first_search f split INF P fuel
    = Some Throws_goal_not_found ↔
  ∃ c tr, rbfs P fuel (root P) (f (root P)) INF = Some ((None, c), tr).
Proof.
  unfold recursive_best_first_search.
  destruct (rbfs P fuel _ _ _) as [[[[goal|] c] tr]|]; simpl.
  - split; [done | by intros (? & ? & ?)].
  - split; [by exists c, tr | done].
  - split; [done | by intros (? & ? & ?)].
Qed.

(** C8: [INF] is an ordinary value of the cost type, used as infinity.
    A node that is within its bound, is no goal and has no actions returns
    [INF] as its cost.  The entry point hands [INF] to the first call as
    its bound.  A frame whose best child has stored cost [INF] returns
    [INF] without a recursive call, and no call made at any depth of the
    recursion is on a child whose stored cost is [INF] or more.  Each of
    these calls is on a node whose [f] is within the bound of the call, so
    that a node without actions that is no goal returns [INF] in every
    one of them. *)
Theorem rbfs_infinity :
  (∀ fuel NODE F_N B,
     f NODE ≤ B → goal_test P (state NODE) = false →
     actions P (state NODE) = [] →
     rbfs P (S fuel) NODE F_N B = Some ((None, INF), []))
  ∧ (∀ fuel,
       recursive_best_first_search f split INF P fuel
       = match rbfs P fuel (root P) (f (root P)) INF with
         | None => None
         | Some ((None, _), _) => Some Throws_goal_not_found
         | Some ((Some goal, _), _) => Some (Returns goal)
         end)
  ∧ (∀ rec fuel BEST it B,
       recursive.cost BEST = INF →
       rbfs_while rec (S fuel) (BEST :: it) B = Some ((None, INF), []))
  ∧ (∀ fuel NODE F_N B r tr,
       rbfs P fuel NODE F_N B = Some (r, tr) →
       Forall (λ c, recursive.call_F c < INF
                    ∧ f (recursive.call_node c) ≤ recursive.call_B c) tr).
Proof.
  split; [|split; [|split]].
  - intros fuel NODE F_N B HB Hg Ha. simpl.
    destruct (Z.gtb_spec (f NODE) B); [lia|]. by rewrite Hg, Ha.
  - intros fuel. unfold recursive_best_first_search.
    by destruct (rbfs P fuel _ _ _) as [[[[goal|] c] tr]|].
  - intros rec fuel BEST it B HI. simpl. rewrite HI.
    rewrite Z.ltb_irrefl. by rewrite andb_false_r.
  - intros fuel NODE F_N B r tr [_ Htr]%rbfs_ok.
    eapply Forall_impl; [done|]. intros c (? & ? & ?). split; [done | lia].
Qed.

End Entry.

(** ** The example problems: runs, and instances of the theorems *)

(** The three-state graph: graph search returns cost 2 along A, B, C (written
    goal first), tree search and the recursive search return the goal node
    of path cost 2; the dead end makes all three throw. *)
Example three_states_graph :
  best_first_search by_path_cost three_states 4
  = Some (Returns ([2%nat; 1%nat; 0%nat], 2)).
Proof. vm_compute. reflexivity. Qed.

Example three_states_tree :
  (λ o, match o with
        | Some (Returns g) => Some (state g, path_cost g)
        | _ => None
        end) (best_first_search_tree by_path_cost three_states 4)
  = Some (2%nat, 2).
Proof. vm_compute. reflexivity. Qed.

Example three_states_rbfs :
  (λ o, match o with
        | Some (Returns g) => Some (state g, path_cost g)
        | _ => None
        end) (recursive_best_first_search f_path_cost no_split INT_MAX
                three_states 4)
  = Some (2%nat, 2).
Proof. vm_compute. reflexivity. Qed.

Example dead_end_throws :
  best_first_search by_path_cost dead_end 2 = Some Throws_goal_not_found
  ∧ best_first_search_tree by_path_cost dead_end 2
    = Some Throws_goal_not_found
  ∧ recursive_best_first_search f_path_cost no_split INT_MAX dead_end 2
    = Some Throws_goal_not_found.
Proof. vm_compute. done. Qed.

(** C1 as it is written fails where the bound is [INF]: the call on the
    dead end with B = [INT_MAX] returns no goal and the cost [INT_MAX], which
    is not above B.  This is the first call of the entry point. *)
Lemma rbfs_bound_counterexample :
  ∃ r tr,
    recursive.recursive_best_first_search f_path_cost no_split INT_MAX
      dead_end 1 (root dead_end) (f_path_cost (root dead_end)) INT_MAX
    = Some (r, tr)
    ∧ r.1 = None ∧ ¬ (INT_MAX < r.2).
Proof.
  exists (None, INT_MAX), []. split; [vm_compute; reflexivity|].
  split; [reflexivity|]. simpl. lia.
Qed.

Lemma rbfs_bound_invariant_witness :
  (recursive.recursive_best_first_search f_path_cost no_split INT_MAX
     three_states 5 (root three_states) 0 1
   = Some ((None, 2),
           [recursive.mkCall (child three_states (root three_states) 1%nat)
              1 1])
   ∧ (1 < 2 ∨ INT_MAX ≤ 2) ∧ (1 < INT_MAX → 1 < 2))
  ∧ ((∀ n, f_saturating n ≤ INT_MAX)
     ∧ recursive.recursive_best_first_search f_saturating no_split INT_MAX
         dead_end 1 (root dead_end) (f_saturating (root dead_end)) INT_MAX
       = Some ((None, INT_MAX), [])
     ∧ INT_MAX ≤ INT_MAX ∧ (INT_MAX = INT_MAX → INT_MAX = INT_MAX)).
Proof.
  split.
  - assert (recursive.recursive_best_first_search f_path_cost no_split
              INT_MAX three_states 5 (root three_states) 0 1
            = Some ((None, 2),
                    [recursive.mkCall
                       (child three_states (root three_states) 1%nat) 1 1]))
      as Hrun by (vm_compute; reflexivity).
    split; [exact Hrun|].
    exact (proj1 (rbfs_bound_invariant f_path_cost no_split INT_MAX
                    three_states 5 (root three_states) 0 1 _ _ Hrun)
             eq_refl).
  - assert (∀ n, f_saturating n ≤ INT_MAX) as Hf
      by (intros n; unfold f_saturating; lia).
    assert (recursive.recursive_best_first_search f_saturating no_split
              INT_MAX dead_end 1 (root dead_end)
              (f_saturating (root dead_end)) INT_MAX
            = Some ((None, INT_MAX), [])) as Hrun
      by (vm_compute; reflexivity).
    split; [exact Hf|]. split; [exact Hrun|].
    exact (proj2 (proj2 (rbfs_bound_invariant f_saturating no_split INT_MAX
                           dead_end 1 (root dead_end)
                           (f_saturating (root dead_end)) INT_MAX _ _ Hrun))
             Hf (Hf (root dead_end)) eq_refl).
Defined.

(** C3 as it is written fails for an [f] that decreases along an edge.
    The entry point calls the root of [three_states] with
    F_N = f(root) = 2; the child for state 1 is stored with its own f = 1,
    below F_N, and the first recursive call is given the stored cost 1. *)
Lemma rbfs_propagated_cost_counterexample :
  f_inconsistent (root three_states) = 2
  ∧ (∃ nc,
       nc ∈ recursive.make_children f_inconsistent no_split three_states
              (root three_states) 2
       ∧ ¬ (2 ≤ recursive.cost nc))
  ∧ (∃ r tr c,
       recursive.recursive_best_first_search f_inconsistent no_split INT_MAX
         three_states 5 (root three_states) 2 INT_MAX = Some (r, tr)
       ∧ c ∈ tr ∧ ¬ (2 ≤ recursive.call_F c)).
Proof.
  split; [reflexivity|]. split.
  - exists (recursive.mkNodeCost
              (child three_states (root three_states) 1%nat) 1).
    split; [vm_compute; by left | simpl; lia].
  - eexists _, _, (recursive.mkCall
                     (child three_states (root three_states) 1%nat) 1 4).
    split; [vm_compute; reflexivity|].
    split; [by left | simpl; lia].
Qed.

Lemma rbfs_while_iteration_witness :
  let rec := recursive.recursive_best_first_search f_path_cost no_split
               INT_MAX three_states 3 in
  let B := child three_states (root three_states) 1%nat in
  let C := child three_states (root three_states) 2%nat in
  let BEST := recursive.mkNodeCost B 1 in
  let it := [recursive.mkNodeCost C 4] in
  recursive.cost_sorted (BEST :: it)
  ∧ rec B 1 1 = Some ((None, 2), [])
  ∧ recursive.cost_sorted [recursive.mkNodeCost B 2; recursive.mkNodeCost C 4]
  ∧ recursive.rbfs_while no_split INT_MAX rec 3 (BEST :: it) 1
    = Some ((None, 2), [recursive.mkCall B 1 1]).
Proof.
  intros rec B C BEST it.
  assert (recursive.cost_sorted (BEST :: it)) as Hs.
  { repeat constructor. simpl. lia. }
  assert (rec B 1 1 = Some ((None, 2), [])) as Hrec
    by (vm_compute; reflexivity).
  split; [exact Hs|]. split; [exact Hrec|].
  destruct (rbfs_while_iteration no_split INT_MAX rec 2 BEST it 1 Hs)
    as (_ & _ & Hbody).
  assert (recursive.cost BEST ≤ 1 ∧ recursive.cost BEST < INT_MAX) as Hcond
    by (unfold INT_MAX; simpl; lia).
  destruct (Hbody Hcond) as [_ Hupdate].
  destruct (Hupdate 2 [] Hrec) as (_ & Hsorted & Heq).
  split; [exact Hsorted|].
  rewrite Heq. vm_compute. reflexivity.
Defined.

Lemma graph_search_goal_output_witness :
  let c := (graph_run by_path_cost three_states 2
              (graph_init by_path_cost three_states)).1 in
  let C := child three_states (child three_states (root three_states) 1%nat)
             2%nat in
  graph_run by_path_cost three_states 2 (graph_init by_path_cost three_states)
  = (c, None)
  ∧ pq_top (frontier c) = Some C
  ∧ best_first_search by_path_cost three_states 3
    = Some (Returns ([2%nat; 1%nat; 0%nat], 2)).
Proof.
  intros c C.
  assert (graph_run by_path_cost three_states 2
            (graph_init by_path_cost three_states) = (c, None)) as Hrun
    by (vm_compute; reflexivity).
  assert (pq_top (frontier c) = Some C) as Htop by (vm_compute; reflexivity).
  split; [exact Hrun|]. split; [exact Htop|].
  exact (proj1 (graph_search_goal_output by_path_cost three_states 2 3 c C
                  Hrun Htop eq_refl ltac:(lia))).
Defined.

Lemma graph_search_initial_goal_witness :
  let P := mkProblem 2%nat (goal_test three_states) (actions three_states)
             (result three_states) (step_cost three_states) in
  goal_test three_states 2%nat = true
  ∧ best_first_search by_path_cost P 1 = Some (Returns ([2%nat], 0)).
Proof.
  intros P. split; [reflexivity|].
  exact (proj1 (graph_search_initial_goal by_path_cost 2%nat
                  (goal_test three_states) (actions three_states)
                  (result three_states) (step_cost three_states) 0
                  eq_refl)).
Defined.

Lemma handle_child_cases_witness :
  let A := root three_states in
  let B := child three_states A 1%nat in
  let C := child three_states A 2%nat in
  let C' := child three_states B 2%nat in
  find (state C') [B; C] = Some (1%nat, C)
  ∧ handle_child by_path_cost [B; C] C' = ([B; C'], Some C).
Proof.
  intros A B C C'.
  assert (find (state C') [B; C] = Some (1%nat, C)) as Hfound
    by (vm_compute; reflexivity).
  split; [exact Hfound|].
  destruct (handle_child_cases by_path_cost [B; C] C')
    as [[Hno _] | (IT & DUP & Hfind & _ & _ & [(_ & Hrepl & _) | [Hle _]])].
  - exfalso. apply Hno. right. left.
  - rewrite Hfound in Hfind. injection Hfind as <- <-. exact Hrepl.
  - rewrite Hfound in Hfind. injection Hfind as <- <-.
    exfalso. vm_compute in Hle. apply Hle. reflexivity.
Defined.

Lemma handle_child_frame_witness :
  let A := root three_states in
  let B := child three_states A 1%nat in
  let C := child three_states A 2%nat in
  let C' := child three_states B 2%nat in
  (state C' ∈ (state <$> [B; C]))
  ∧ length (handle_child by_path_cost [B; C] C').1 = length [B; C]
  ∧ filter (λ n, state n ≠ state C')
      (handle_child by_path_cost [B; C] C').1
    = [B].
Proof.
  intros A B C C'.
  assert (state C' ∈ (state <$> [B; C])) as Hin by (right; left).
  destruct (handle_child_frame by_path_cost [B; C] C') as (Hf & _ & Hl).
  split; [exact Hin|]. split; [exact (Hl Hin)|].
  rewrite Hf. vm_compute. reflexivity.
Defined.

Lemma graph_search_expands_once_witness :
  let c := (graph_run by_path_cost three_states 2
              (graph_init by_path_cost three_states)).1 in
  popped c = [0%nat; 1%nat] ∧ NoDup (popped c)
  ∧ NoDup (state <$> frontier c).
Proof.
  intros c. split; [vm_compute; reflexivity|].
  destruct (graph_search_expands_once by_path_cost three_states 2)
    as (Hpop & _ & Hfr & _).
  split; [exact Hpop | exact Hfr].
Defined.

Lemma three_states_step_cost_nonneg (n : Node nat nat) (a : nat) :
  f_path_cost n ≤ f_path_cost (child three_states n a).
Proof.
  unfold f_path_cost, child, child3. simpl.
  destruct (state n) as [|[|?]]; destruct a as [|[|[|?]]]; simpl; lia.
Qed.

Lemma rbfs_propagated_cost_witness :
  (∀ n a, a ∈ actions three_states (state n) →
          f_path_cost n ≤ f_path_cost (child three_states n a))
  ∧ ∃ r tr,
      recursive.recursive_best_first_search f_path_cost no_split INT_MAX
        three_states 5 (root three_states) 0 INT_MAX = Some (r, tr)
      ∧ length tr = 2%nat
      ∧ Forall (λ c, 0 ≤ recursive.call_F c) tr.
Proof.
  assert (∀ n a, a ∈ actions three_states (state n) →
            f_path_cost n ≤ f_path_cost (child three_states n a)) as Hmono
    by (intros n a _; apply three_states_step_cost_nonneg).
  split; [exact Hmono|].
  destruct (recursive.recursive_best_first_search f_path_cost no_split
              INT_MAX three_states 5 (root three_states) 0 INT_MAX)
    as [[r tr]|] eqn:Hrun; [|vm_compute in Hrun; discriminate].
  exists r, tr. split; [reflexivity|]. split.
  - vm_compute in Hrun. injection Hrun as <- <-. reflexivity.
  - exact (proj2 (proj2 (proj2 (rbfs_propagated_cost f_path_cost no_split
             INT_MAX three_states (root three_states) 0)))
             Hmono 5%nat INT_MAX r tr Hrun).
Defined.

Lemma rbfs_infinity_witness :
  f_path_cost (root dead_end) ≤ INT_MAX
  ∧ recursive.recursive_best_first_search f_path_cost no_split INT_MAX
      dead_end 1 (root dead_end) 0 INT_MAX = Some ((None, INT_MAX), []).
Proof.
  assert (f_path_cost (root dead_end) ≤ INT_MAX) as Hle by (vm_compute; done).
  split; [exact Hle|].
  exact (proj1 (rbfs_infinity f_path_cost no_split INT_MAX dead_end)
           0%nat (root dead_end) 0 INT_MAX Hle eq_refl eq_refl).
Defined.


(** * Further properties *)

(** ** Duplicate resolution: lookups after it *)

Section HandleChildLookup.
Context {State Action : Type} `{EqDecision State}.
Local Abbreviation Node := (Node State Action).
Variable Comparator : Node → Node → bool.

(** On a frontier with one entry per state, [find] gives any entry for
    the entry's own state. *)
Lemma find_elem_of (fr : list Node) (n : Node) :
  NoDup (state <$> fr) → n ∈ fr → ∃ i, find (state n) fr = Some (i, n).
Proof.
  intros Hnd [i Hi]%list_elem_of_lookup_1. exists i.
  apply list_find_Some. split; [done|]. split; [done|].
  intros j y Hj Hlt Hy.
  assert (j = i); [|lia].
  eapply NoDup_lookup; [done| |].
  - by rewrite list_lookup_fmap, Hj.
  - rewrite list_lookup_fmap, Hi. simpl. by rewrite Hy.
Qed.

Lemma elem_of_delete_or (fr : list Node) (i : nat) (d n : Node) :
  fr !! i = Some d → n ∈ fr → n = d ∨ n ∈ delete i fr.
Proof.
  intros Hi Hn. destruct (delete_take_drop_middle fr i d Hi) as [Hfr ->].
  rewrite Hfr in Hn. rewrite elem_of_app in *.
  rewrite elem_of_cons in Hn. tauto.
Qed.

Lemma handle_child_NoDup_states (fr : list Node) (CHILD : Node) :
  NoDup (state <$> fr) →
  NoDup (state <$> (handle_child Comparator fr CHILD).1).
Proof.
  intros Hnd.
  destruct (handle_child_branches Comparator fr CHILD)
    as [[Hno ->] | (IT & DUP & _ & Hlook & Hst & [[_ ->] | [_ ->]])];
    simpl; [| |done].
  - unfold push. rewrite pq_push_perm, fmap_cons. by apply NoDup_cons.
  - rewrite increase_perm.
    destruct (delete_take_drop_middle fr IT DUP Hlook) as [Hfr ->].
    rewrite Hfr in Hnd. rewrite fmap_cons, <- Hst.
    revert Hnd. rewrite !fmap_app, fmap_cons.
    by rewrite <- Permutation_middle.
Qed.

(** X1: decrease-key.  On a frontier with one entry per state,
    [handle_child] keeps one entry per state, and a lookup of the
    candidate's state afterwards gives the cheaper of the candidate and the
    entry that was stored for its state (the stored entry on a tie), or the
    candidate when there was none. *)
Theorem handle_child_lookup (frontier : list Node) (CHILD : Node) :
  NoDup (state <$> frontier) →
  let frontier' := (handle_child Comparator frontier CHILD).1 in
  NoDup (state <$> frontier')
  ∧ ∃ i n,
      find (state CHILD) frontier' = Some (i, n)
      ∧ n = match find (state CHILD) frontier with
            | None => CHILD
            | Some (_, DUPLICATE) =>
                if bool_decide (path_cost CHILD < path_cost DUPLICATE)
                then CHILD else DUPLICATE
            end.
Proof.
  intros Hnd frontier'.
  pose proof (handle_child_NoDup_states frontier CHILD Hnd) as Hnd'.
  fold frontier' in Hnd'. split; [done|].
  assert (∀ n, n ∈ frontier' → state n = state CHILD →
            ∃ i, find (state CHILD) frontier' = Some (i, n)) as Hfind'.
  { intros n Hn <-. by apply find_elem_of. }
  unfold frontier' in *.
  destruct (handle_child_branches Comparator frontier CHILD)
    as [[Hno Heq] | (IT & DUP & Hfind & Hlook & Hst & [[Hlt Heq] | [Hge Heq]])];
    rewrite Heq in *; simpl in *.
  - apply find_None in Hno. rewrite Hno.
    destruct (Hfind' CHILD) as [i Hi]; [|done|by exists i, CHILD].
    apply elem_of_pq_push. by left.
  - rewrite Hfind, bool_decide_true by done.
    destruct (Hfind' CHILD) as [i Hi]; [|done|by exists i, CHILD].
    apply elem_of_pq_push. by left.
  - rewrite Hfind, bool_decide_false by lia. by exists IT, DUP.
Qed.

Lemma handle_child_from (frontier : list Node) (CHILD n' : Node) :
  n' ∈ (handle_child Comparator frontier CHILD).1 →
  n' = CHILD ∨ n' ∈ frontier.
Proof.
  destruct (handle_child_branches Comparator frontier CHILD)
    as [[_ ->] | (IT & DUP & _ & _ & _ & [[_ ->] | [_ ->]])]; simpl.
  - apply elem_of_pq_push.
  - intros [->|Hn]%elem_of_pq_push; [by left | right].
    by eapply list_elem_of_delete_inv.
  - intros Hn. by right.
Qed.

Lemma handle_child_cheaper (frontier : list Node) (CHILD n : Node) :
  n = CHILD ∨ n ∈ frontier →
  ∃ n', n' ∈ (handle_child Comparator frontier CHILD).1
        ∧ state n' = state n ∧ path_cost n' ≤ path_cost n.
Proof.
  destruct (handle_child_branches Comparator frontier CHILD)
    as [[_ ->] | (IT & DUP & _ & Hlook & Hst & [[Hlt ->] | [Hge ->]])];
    simpl.
  - intros Hn. exists n. split; [by apply elem_of_pq_push | done].
  - intros [-> | Hn].
    + exists CHILD. split; [apply elem_of_pq_push; by left | done].
    + destruct (elem_of_delete_or _ _ _ _ Hlook Hn) as [-> | Hdel].
      * exists CHILD. split; [apply elem_of_pq_push; by left|].
        split; [done | lia].
      * exists n. split; [apply elem_of_pq_push; by right | done].
  - intros [-> | Hn].
    + exists DUP. split; [by eapply list_elem_of_lookup_2 | done].
    + by exists n.
Qed.

(** X2: [handle_child] drops no state from the frontier and makes no state
    dearer.  The states on the frontier afterwards are those before and the
    candidate's; each entry is the candidate or an entry from before; and
    for each entry from before, and for the candidate, there is an entry of
    the same state afterwards that costs no more. *)
Theorem handle_child_never_dearer (frontier : list Node) (CHILD : Node) :
  let frontier' := (handle_child Comparator frontier CHILD).1 in
  (∀ s, s ∈ (state <$> frontier') ↔
        s = state CHILD ∨ s ∈ (state <$> frontier))
  ∧ (∀ n', n' ∈ frontier' → n' = CHILD ∨ n' ∈ frontier)
  ∧ (∀ n, n = CHILD ∨ n ∈ frontier →
          ∃ n', n' ∈ frontier' ∧ state n' = state n
                ∧ path_cost n' ≤ path_cost n).
Proof.
  intros frontier'. split; [|split].
  - intros s. rewrite !list_elem_of_fmap. split.
    + intros (n' & -> & [-> | Hn]%handle_child_from);
        [by left | right; by exists n'].
    + intros [-> | (n & -> & Hn)].
      * destruct (handle_child_cheaper frontier CHILD CHILD)
          as (n' & ? & ? & _); [by left | by exists n'].
      * destruct (handle_child_cheaper frontier CHILD n)
          as (n' & ? & ? & _); [by right | by exists n'].
  - apply handle_child_from.
  - apply handle_child_cheaper.
Qed.
End HandleChildLookup.

(** ** Graph search: what it returns, when it fails, that it ends *)

Section GraphSearchResults.
Context {State Action : Type} `{Countable State} `{Inhabited Action}.
Local Abbreviation Node := (Node State Action).
Local Abbreviation gconfig := (gconfig State Action).
Variable Comparator : Node → Node → bool.
Variable P : Problem State Action.

Lemma generated_route (n : Node) :
  generated P n → route P (state <$> ancestors n) (path_cost n).
Proof.
  induction 1 as [a | p a Hp IH Ha]; [simpl; constructor|].
  change (ancestors (child P p a)) with (child P p a :: ancestors p).
  rewrite (ancestors_unfold p) in *. simpl in *. by constructor.
Qed.

Lemma generated_path_to (n : Node) :
  generated P n → path_to P (state n) (path_cost n).
Proof.
  intros Hr%generated_route. rewrite (ancestors_unfold n) in Hr.
  by eexists.
Qed.

Lemma path_to_reachable (s : State) :
  reachable P s ↔ ∃ c, path_to P s c.
Proof.
  split.
  - induction 1 as [|s a _ [c [l Hl]] Ha].
    + exists 0, []. constructor.
    + eexists _, _. by constructor.
  - intros (c & l & Hr).
    remember (s :: l) as sl eqn:Hsl. revert s l Hsl.
    induction Hr as [|s' l' c' a Hr IH Ha]; intros s l [= <- <-].
    + constructor.
    + constructor; [by eapply IH | done].
Qed.

Lemma expand_from (S_ : Node) (cl : gset State) (acts : list Action)
    (fr : list Node) (n : Node) :
  n ∈ expand Comparator P S_ cl fr acts →
  n ∈ fr ∨ ∃ a, a ∈ acts ∧ n = child P S_ a.
Proof.
  revert fr. induction acts as [|a acts IH]; intros fr; [by left|].
  intros [Hn | (b & Hb & ->)]%IH.
  - unfold expand_action in Hn. case_decide; [by left|].
    apply handle_child_from in Hn as [-> | Hn]; [right | by left].
    exists a. split; [by left | done].
  - right. exists b. split; [by right | done].
Qed.

Lemma expand_cheaper (S_ : Node) (cl : gset State) (acts : list Action)
    (fr : list Node) (n : Node) :
  n ∈ fr →
  ∃ n', n' ∈ expand Comparator P S_ cl fr acts
        ∧ state n' = state n ∧ path_cost n' ≤ path_cost n.
Proof.
  revert fr n. induction acts as [|a acts IH]; intros fr n Hn; [by exists n|].
  assert (∃ n1, n1 ∈ expand_action Comparator P S_ cl fr a
                ∧ state n1 = state n ∧ path_cost n1 ≤ path_cost n)
    as (n1 & Hn1 & Hs1 & Hc1).
  { unfold expand_action. case_decide; [by exists n|].
    apply handle_child_cheaper. by right. }
  destruct (IH _ _ Hn1) as (n' & Hn' & Hs' & Hc').
  exists n'. split; [done|]. split; [congruence | lia].
Qed.

Lemma expand_child_cheaper (S_ : Node) (cl : gset State)
    (acts : list Action) (fr : list Node) (a : Action) :
  a ∈ acts → result P (state S_) a ∉ cl →
  ∃ n', n' ∈ expand Comparator P S_ cl fr acts
        ∧ state n' = result P (state S_) a
        ∧ path_cost n' ≤ path_cost (child P S_ a).
Proof.
  revert fr. induction acts as [|b acts IH]; intros fr Ha Hcl;
    [by apply elem_of_nil in Ha|].
  apply elem_of_cons in Ha as [<- | Ha]; [|by apply IH].
  destruct (handle_child_cheaper Comparator fr (child P S_ a) (child P S_ a))
    as (n1 & Hn1 & Hs1 & Hc1); [by left|].
  destruct (expand_cheaper S_ cl acts
              (expand_action Comparator P S_ cl fr a) n1)
    as (n' & Hn' & Hs' & Hc').
  { unfold expand_action. by rewrite decide_False. }
  exists n'. split; [done|]. split; [by rewrite Hs', Hs1 | lia].
Qed.

Lemma graph_cover_init : graph_cover P (graph_init Comparator P).
Proof.
  split; [|split]; simpl.
  - apply Forall_singleton. constructor.
  - right. by left.
  - intros s a Hs. by apply elem_of_empty in Hs.
Qed.

Lemma graph_step_cover (c c' : gconfig)
    (o : option (outcome (list State * Z))) :
  graph_cover P c → graph_step Comparator P c = (c', o) → o = None →
  graph_cover P c'.
Proof.
  intros (Hgen & Hinit & Hsucc). unfold graph_step.
  destruct (frontier c) as [|S_ fr] eqn:Hfr; simpl; [by intros [= <- <-]|].
  apply Forall_cons in Hgen as [HgS Hgen].
  destruct (goal_test P (state S_)); intros [= <- <-]; [done|]. intros _.
  assert (∀ s, s ∈ (state <$> S_ :: fr) →
            s ∈ {[state S_]} ∪ closed c
            ∨ s ∈ (state <$> expand Comparator P S_ ({[state S_]} ∪ closed c)
                               fr (actions P (state S_)))) as Hkeep.
  { intros s [->|Hs]%elem_of_cons;
      [left; by apply elem_of_union_l, elem_of_singleton|]. right.
    apply list_elem_of_fmap in Hs as (n & -> & Hn).
    destruct (expand_cheaper S_ ({[state S_]} ∪ closed c)
                (actions P (state S_)) fr n Hn) as (n' & Hn' & <- & _).
    apply list_elem_of_fmap. by exists n'. }
  split; [|split]; simpl.
  - apply Forall_forall. intros n [Hn | (a & Ha & ->)]%expand_from.
    + by eapply Forall_forall in Hgen.
    + by constructor.
  - destruct Hinit as [Hin | Hin];
      [left; by apply elem_of_union_r | by apply Hkeep].
  - intros s a [->%elem_of_singleton | Hs]%elem_of_union Ha.
    + destruct (decide (result P (state S_) a ∈ {[state S_]} ∪ closed c))
        as [Hin | Hout]; [by left | right].
      destruct (expand_child_cheaper S_ _ (actions P (state S_)) fr a Ha Hout)
        as (n' & Hn' & <- & _).
      apply list_elem_of_fmap. by exists n'.
    + destruct (Hsucc s a Hs Ha) as [Hin | Hin];
        [left; by apply elem_of_union_r | by apply Hkeep].
Qed.

(** Both invariants hold whenever the loop of graph search tests its
    condition. *)
Lemma graph_run_cover (k : nat) (c : gconfig) :
  graph_run Comparator P k (graph_init Comparator P) = (c, None) →
  graph_inv P c ∧ graph_cover P c.
Proof.
  intros Hrun.
  destruct (while_loop_invariant (graph_step Comparator P)
              (λ c, graph_inv P c ∧ graph_cover P c) (λ _, True)
              (λ _ _, I)) with (k := k) (c0 := graph_init Comparator P)
    as [_ Hinv].
  - intros c1 c2 o [Hi Hc] Hstep. split; [done|]. intros ->. split.
    + by apply (graph_step_inv Comparator P c1 c2 None).
    + by apply (graph_step_cover c1 c2 None).
  - split; [apply graph_inv_init | apply graph_cover_init].
  - unfold graph_run in Hrun. rewrite Hrun in Hinv. by apply Hinv.
Qed.

Lemma graph_step_returns (c c' : gconfig) (out : list State) (cost : Z) :
  graph_step Comparator P c = (c', Some (Returns (out, cost))) →
  ∃ S_ fr, frontier c = S_ :: fr ∧ goal_test P (state S_) = true
           ∧ out = state <$> ancestors S_ ∧ cost = path_cost S_.
Proof.
  unfold graph_step. destruct (frontier c) as [|S_ fr]; simpl; [done|].
  destruct (goal_test P (state S_)) eqn:Hg; [|done].
  rewrite unravel_ancestors. intros [= <- <- <-]. by exists S_, fr.
Qed.

(** X3: what graph search returns is a path of the problem to a goal.  The
    states written to the sink are a route from the initial state, along
    actions of the problem, to a state that passes the goal test (written
    goal first), and the cost returned is the sum of the step costs on
    it. *)
Theorem graph_search_returns_route (fuel : nat) (out : list State)
    (cost : Z) :
  best_first_search Comparator P fuel = Some (Returns (out, cost)) →
  route P out cost
  ∧ ∃ s l, out = s :: l ∧ goal_test P s = true.
Proof.
  unfold best_first_search, graph_run.
  destruct (while_loop _ fuel _) as [c' o] eqn:Hrun. simpl. intros ->.
  apply while_loop_finished in Hrun as (k & c & _ & Hrun & Hstep).
  apply graph_run_cover in Hrun as [_ (Hgen & _)].
  apply graph_step_returns in Hstep as (S_ & fr & Hfr & Hg & -> & ->).
  rewrite Hfr in Hgen. apply Forall_cons in Hgen as [HgS _].
  split; [by apply generated_route|].
  rewrite (ancestors_unfold S_). by eexists _, _.
Qed.

(** When the frontier is empty, every reachable state is closed, and no
    closed state passes the goal test. *)
Lemma graph_cover_exhausted (c : gconfig) (s : State) :
  graph_inv P c → graph_cover P c → frontier c = [] →
  reachable P s → goal_test P s = false.
Proof.
  intros (_ & _ & Hcl & Hgoal & _) (_ & Hinit & Hsucc) Hfr Hreach.
  rewrite Hfr in Hinit, Hsucc. simpl in *.
  assert (s ∈ closed c) as Hs.
  { induction Hreach as [|s a _ IH Ha].
    - destruct Hinit as [?|Hin]; [done | by apply elem_of_nil in Hin].
    - destruct (Hsucc s a IH Ha) as [?|Hin];
        [done | by apply elem_of_nil in Hin]. }
  rewrite Forall_forall in Hgoal. by apply Hgoal, Hcl.
Qed.

(** X4: graph search fails only when there is no goal to find: if it throws
    [goal_not_found], no state that actions lead to from the initial state
    passes the goal test. *)
Theorem graph_search_throws_no_goal (fuel : nat) (s : State) :
  best_first_search Comparator P fuel = Some Throws_goal_not_found →
  reachable P s → goal_test P s = false.
Proof.
  intros (k & c & _ & Hrun & Hfr & _)%graph_search_throws Hreach.
  apply graph_run_cover in Hrun as [Hinv Hcover].
  by apply (graph_cover_exhausted c).
Qed.

Lemma graph_step_popped_length (c c' : gconfig) :
  graph_step Comparator P c = (c', None) →
  length (popped c') = S (length (popped c))
  ∧ ∀ s, s ∈ popped c' → s ∈ popped c ∨ s ∈ (state <$> frontier c).
Proof.
  unfold graph_step.
  destruct (frontier c) as [|S_ fr]; simpl; [done|].
  destruct (goal_test P (state S_)); [done|].
  intros [= <-]. simpl. rewrite length_app. simpl. split; [lia|].
  intros s [Hs | ->%list_elem_of_singleton]%elem_of_app;
    [by left | right; by left].
Qed.

(** After [k] iterations that did not leave the loop, [k] states were
    popped, all of them reachable. *)
Lemma graph_run_popped (k : nat) :
  ∀ c, graph_run Comparator P k (graph_init Comparator P) = (c, None) →
       length (popped c) = k ∧ ∀ s, s ∈ popped c → reachable P s.
Proof.
  unfold graph_run. induction k as [|k IH]; intros c Hrun.
  - injection Hrun as <-. split; [done|].
    intros s Hs. by apply elem_of_nil in Hs.
  - pose proof Hrun as Hrun'.
    apply (while_loop_finished_last (graph_step Comparator P)) in Hrun'
      as (c1 & Hrun1 & Hstep).
    destruct (IH _ Hrun1) as [Hlen Hreach].
    destruct (graph_step_popped_length _ _ Hstep) as [Hlen' Hfrom].
    split; [lia|].
    intros s [Hs | Hs]%Hfrom; [by apply Hreach|].
    apply graph_run_cover in Hrun1 as [_ (Hgen & _)].
    apply list_elem_of_fmap in Hs as (n & -> & Hn).
    apply path_to_reachable. eexists.
    apply generated_path_to. by eapply Forall_forall in Hgen.
Qed.

(** With all reachable states in [X], the loop is left within
    [size X + 1] iterations. *)
Lemma graph_run_bounded (X : gset State) :
  (∀ s, reachable P s → s ∈ X) →
  ∃ c r, graph_run Comparator P (S (size X)) (graph_init Comparator P)
         = (c, Some r).
Proof.
  intros HX.
  destruct (graph_run Comparator P (S (size X)) (graph_init Comparator P))
    as [c [r|]] eqn:Hrun; [by exists c, r|].
  exfalso.
  destruct (graph_run_popped _ _ Hrun) as [Hlen Hreach].
  apply graph_run_cover in Hrun as [(Hnd & _) _].
  assert (popped c ⊆+ elements X) as Hsub.
  { apply NoDup_submseteq; [done|].
    intros s Hs. by apply elem_of_elements, HX, Hreach. }
  apply submseteq_length in Hsub.
  unfold size, set_size in Hlen. simpl in *. lia.
Qed.

(** X5: graph search ends on a finite state space.  If every state that
    actions lead to from the initial state lies in the finite set [X], the
    loop is left after at most [size X + 1] iterations: with that much fuel
    or more the search returns a path or throws. *)
Theorem graph_search_terminates (X : gset State) (fuel : nat) :
  (∀ s, reachable P s → s ∈ X) →
  (size X < fuel)%nat →
  ∃ r, best_first_search Comparator P fuel = Some r.
Proof.
  intros HX Hfuel.
  destruct (graph_run_bounded X HX) as (c & r & Hrun).
  exists r. unfold graph_run in Hrun.
  apply while_loop_finished in Hrun as (k & c0 & Hk & Hrun & Hstep).
  unfold best_first_search, graph_run.
  rewrite (while_loop_finish _ k fuel _ c0 c r Hrun Hstep); [done | lia].
Qed.

(** X12: graph search finds a goal that can be reached.  If the reachable
    states lie in the finite set [X] and one of them passes the goal test,
    then with fuel above [size X] the search returns a path and a cost. *)
Theorem graph_search_finds_goal (X : gset State) (fuel : nat) (t : State) :
  (∀ s, reachable P s → s ∈ X) →
  reachable P t → goal_test P t = true →
  (size X < fuel)%nat →
  ∃ out cost, best_first_search Comparator P fuel = Some (Returns (out, cost)).
Proof.
  intros HX Ht Hg Hfuel.
  destruct (graph_run_bounded X HX) as (c & r & Hrun).
  unfold graph_run in Hrun.
  apply while_loop_finished in Hrun as (k & c0 & Hk & Hrun & Hstep).
  destruct r as [[out cost]|].
  - exists out, cost. unfold best_first_search, graph_run.
    rewrite (while_loop_finish _ k fuel _ c0 c _ Hrun Hstep); [done | lia].
  - exfalso. apply graph_step_throws in Hstep as [Hfr _].
    apply graph_run_cover in Hrun as [Hinv Hcover].
    pose proof (graph_cover_exhausted c0 t Hinv Hcover Hfr Ht). congruence.
Qed.
End GraphSearchResults.

(** ** Graph search: the cost returned is the least *)

Section GraphSearchOptimal.
Context {State Action : Type} `{Countable State} `{Inhabited Action}.
Local Abbreviation Node := (Node State Action).
Local Abbreviation gconfig := (gconfig State Action).
Variable Comparator : Node → Node → bool.
Variable P : Problem State Action.
Hypothesis Comparator_cost : cost_ordered Comparator.
Hypothesis costs_nonneg : nonneg_costs P.

Local Abbreviation by_cost :=
  (λ a b : Node, path_cost a ≤ path_cost b).

Lemma pq_push_by_cost (x : Node) (q : list Node) :
  StronglySorted by_cost q → StronglySorted by_cost (pq_push Comparator x q).
Proof.
  induction q as [|y q IH]; intros Hq; simpl.
  - by repeat constructor.
  - apply StronglySorted_inv in Hq as [Hq Hy].
    destruct (Comparator y x) eqn:Hlt.
    + apply Comparator_cost in Hlt.
      constructor; [by constructor|].
      constructor; [done|].
      eapply Forall_impl; [done|]. simpl. intros z Hz. lia.
    + apply Comparator_cost in Hlt.
      constructor; [by apply IH|].
      rewrite pq_push_perm. by constructor.
Qed.

Lemma delete_by_cost (i : nat) (q : list Node) :
  StronglySorted by_cost q → StronglySorted by_cost (delete i q).
Proof.
  revert i. induction q as [|y q IH]; intros i Hq; [done|].
  apply StronglySorted_inv in Hq as [Hq Hy].
  destruct i as [|i]; simpl; [done|].
  constructor; [by apply IH|].
  apply Forall_forall. intros z Hz%list_elem_of_delete_inv.
  by eapply Forall_forall in Hy.
Qed.

Lemma handle_child_by_cost (fr : list Node) (CHILD : Node) :
  StronglySorted by_cost fr →
  StronglySorted by_cost (handle_child Comparator fr CHILD).1.
Proof.
  intros Hfr.
  destruct (handle_child_branches Comparator fr CHILD)
    as [[_ ->] | (IT & DUP & _ & _ & _ & [[_ ->] | [_ ->]])]; simpl.
  - by apply pq_push_by_cost.
  - by apply pq_push_by_cost, delete_by_cost.
  - done.
Qed.

Lemma expand_by_cost (S_ : Node) (cl : gset State) (acts : list Action)
    (fr : list Node) :
  StronglySorted by_cost fr →
  StronglySorted by_cost (expand Comparator P S_ cl fr acts).
Proof.
  revert fr. induction acts as [|a acts IH]; intros fr Hfr; [done|].
  apply IH. unfold expand_action. case_decide; [done|].
  by apply handle_child_by_cost.
Qed.

(** Every route ends in a closed state or costs at least as much as some
    node of the frontier. *)
Lemma graph_best_cut (c : gconfig) (l : list State) (c0 : Z) :
  graph_best P c → route P l c0 →
  ∃ t l0, l = t :: l0
          ∧ (t ∈ closed c ∨ ∃ n, n ∈ frontier c ∧ path_cost n ≤ c0).
Proof.
  intros (_ & Hinit & Hsucc).
  induction 1 as [|s l c0 a Hr (t & l0 & [= <- <-] & IH) Ha].
  - eexists _, _. split; [done|].
    destruct Hinit as [?|(n & ? & _ & ?)]; [by left | right; by exists n].
  - eexists _, _. split; [done|].
    pose proof (costs_nonneg s a Ha) as Hw.
    destruct IH as [Hs | (n & Hn & Hc)].
    + destruct (decide (result P s a ∈ closed c)) as [?|Hout]; [by left|].
      destruct (Hsucc s c0 a Hs) as (n & Hn & _ & Hc);
        [by exists l | done | done |].
      right. by exists n.
    + right. exists n. split; [done | lia].
Qed.

(** The node popped next is at least as cheap as any route to its state,
    and as any route to a state that is not closed. *)
Lemma graph_best_head (c : gconfig) (S_ : Node) (fr : list Node)
    (t : State) (c0 : Z) :
  graph_best P c → frontier c = S_ :: fr →
  path_to P t c0 → t ∉ closed c → path_cost S_ ≤ c0.
Proof.
  intros Hbest Hfr [l Hr] Hout.
  destruct (graph_best_cut c _ _ Hbest Hr)
    as (t' & l0 & [= <- <-] & [? | (n & Hn & Hc)]); [done|].
  destruct Hbest as (Hsorted & _). rewrite Hfr in Hsorted, Hn.
  apply StronglySorted_inv in Hsorted as [_ Hall].
  apply elem_of_cons in Hn as [-> | Hn]; [done|].
  eapply Forall_forall in Hall; [|done]. simpl in Hall. lia.
Qed.

Lemma graph_best_init : graph_best P (graph_init Comparator P).
Proof.
  split; [|split]; simpl.
  - by repeat constructor.
  - right. exists (root P). split; [by left | done].
  - intros s c0 a Hs. by apply elem_of_empty in Hs.
Qed.

Lemma graph_step_best (c c' : gconfig)
    (o : option (outcome (list State * Z))) :
  graph_inv P c → graph_best P c →
  graph_step Comparator P c = (c', o) → o = None → graph_best P c'.
Proof.
  intros (_ & [_ Hdisj] & _) Hbest.
  pose proof Hbest as (Hsorted & Hinit & Hsucc). unfold graph_step.
  destruct (frontier c) as [|S_ fr] eqn:Hfr; simpl; [by intros [= <- <-]|].
  destruct (goal_test P (state S_)); intros [= <- <-]; [done|]. intros _.
  assert (state S_ ∉ closed c) as HS by (apply Hdisj; by left).
  apply StronglySorted_inv in Hsorted as [Hsorted _].
  set (cl := {[state S_]} ∪ closed c).
  assert (∀ n, n ∈ S_ :: fr → state n ∉ cl →
            ∃ n', n' ∈ expand Comparator P S_ cl fr (actions P (state S_))
                  ∧ state n' = state n ∧ path_cost n' ≤ path_cost n)
    as Hkeep.
  { intros n [->|Hn]%elem_of_cons Hout.
    - exfalso. apply Hout. by apply elem_of_union_l, elem_of_singleton.
    - by apply expand_cheaper. }
  split; [|split]; simpl.
  - by apply expand_by_cost.
  - destruct (decide (initial P ∈ cl)) as [?|Hout]; [by left | right].
    destruct Hinit as [Hin | (n & Hn & Hs & Hc)].
    { exfalso. by apply Hout, elem_of_union_r. }
    destruct (Hkeep n Hn) as (n' & Hn' & Hs' & Hc'); [by rewrite Hs|].
    exists n'. split; [done|]. split; [congruence | lia].
  - intros s c0 a [->%elem_of_singleton | Hs]%elem_of_union Hp Ha Hout.
    + destruct (expand_child_cheaper Comparator P S_ cl
                  (actions P (state S_)) fr a Ha Hout)
        as (n' & Hn' & Hs' & Hc').
      exists n'. split; [done|]. split; [done|].
      pose proof (graph_best_head c S_ fr _ _ Hbest Hfr Hp HS).
      simpl in Hc'. lia.
    + destruct (Hsucc s c0 a Hs Hp Ha) as (n & Hn & Hs' & Hc).
      { intros Hin. by apply Hout, elem_of_union_r. }
      destruct (Hkeep n Hn) as (n' & Hn' & Hs'' & Hc'); [by rewrite Hs'|].
      exists n'. split; [done|]. split; [congruence | lia].
Qed.

Lemma graph_run_best (k : nat) (c : gconfig) :
  graph_run Comparator P k (graph_init Comparator P) = (c, None) →
  graph_inv P c ∧ graph_best P c.
Proof.
  intros Hrun.
  destruct (while_loop_invariant (graph_step Comparator P)
              (λ c, graph_inv P c ∧ graph_best P c) (λ _, True)
              (λ _ _, I)) with (k := k) (c0 := graph_init Comparator P)
    as [_ Hinv].
  - intros c1 c2 o [Hi Hc] Hstep. split; [done|]. intros ->. split.
    + by apply (graph_step_inv Comparator P c1 c2 None).
    + by apply (graph_step_best c1 c2 None).
  - split; [apply graph_inv_init | apply graph_best_init].
  - unfold graph_run in Hrun. rewrite Hrun in Hinv. by apply Hinv.
Qed.

(** X6: with a frontier ordered by path cost and no negative step cost,
    graph search returns the least cost: the cost it returns is the cost of
    the route it writes, and no route from the initial state to any state
    that passes the goal test costs less. *)
Theorem graph_search_optimal (fuel : nat) (out : list State) (cost : Z)
    (t : State) (c0 : Z) :
  best_first_search Comparator P fuel = Some (Returns (out, cost)) →
  path_to P t c0 → goal_test P t = true →
  cost ≤ c0.
Proof.
  unfold best_first_search, graph_run.
  destruct (while_loop _ fuel _) as [c' o] eqn:Hrun. simpl. intros ->.
  intros Hp Hg.
  apply while_loop_finished in Hrun as (k & c & _ & Hrun & Hstep).
  apply graph_run_best in Hrun as [(_ & _ & Hcl & Hgoal & _) Hbest].
  apply graph_step_returns in Hstep as (S_ & fr & Hfr & _ & _ & ->).
  apply (graph_best_head c S_ fr t c0 Hbest Hfr Hp).
  intros Hin%Hcl. rewrite Forall_forall in Hgoal.
  apply Hgoal in Hin. congruence.
Qed.
End GraphSearchOptimal.

(** ** Tree search: what it returns, when it fails *)

Section TreeSearchResults.
Context {State Action : Type} `{Inhabited Action}.
Local Abbreviation Node := (Node State Action).
Local Abbreviation tconfig := (tconfig State Action).
Variable Comparator : Node → Node → bool.
Variable P : Problem State Action.

Lemma foldl_pq_push_children {B : Type} (h : B → Node) (l : list B)
    (acc : list Node) :
  foldl (λ fr b, pq_push Comparator (h b) fr) acc l ≡ₚ (h <$> l) ++ acc.
Proof.
  revert acc. induction l as [|b l IH]; intros acc; simpl; [done|].
  rewrite IH, pq_push_perm. by rewrite Permutation_middle.
Qed.

Lemma built_generated (g : Node) : built P g → generated P g.
Proof. induction 1; by constructor. Qed.

Lemma route_built (l : list State) (c0 : Z) :
  route P l c0 →
  ∃ g, built P g ∧ state <$> ancestors g = l ∧ path_cost g = c0.
Proof.
  induction 1 as [|s l c0 a Hr (g & Hg & Hl & Hc) Ha].
  - exists (root P). split; [constructor | done].
  - assert (state g = s) as Hs.
    { rewrite (ancestors_unfold g) in Hl. by injection Hl. }
    exists (child P g a). split; [constructor; by rewrite ?Hs|].
    change (ancestors (child P g a)) with (child P g a :: ancestors g).
    rewrite fmap_cons, Hl. simpl. by rewrite Hs, Hc.
Qed.

Lemma ancestors_self (g : Node) : g ∈ ancestors g.
Proof. rewrite ancestors_unfold. by left. Qed.

(** A node on the parent chain of a built node is that node, or has a
    child on the chain. *)
Lemma built_ancestor_step (g S_ : Node) :
  built P g → S_ ∈ ancestors g →
  g = S_ ∨ ∃ a, a ∈ actions P (state S_) ∧ child P S_ a ∈ ancestors g.
Proof.
  induction 1 as [|p a Hp IH Ha].
  - intros ->%list_elem_of_singleton. by left.
  - change (ancestors (child P p a)) with (child P p a :: ancestors p).
    intros [-> | Hin]%elem_of_cons; [by left | right].
    destruct (IH Hin) as [-> | (b & Hb & Hchild)].
    + exists a. split; [done | by left].
    + exists b. split; [done | by right].
Qed.

Lemma tree_cover_init : tree_cover P (tree_init Comparator P).
Proof.
  split; [|split]; simpl.
  - apply Forall_singleton. constructor.
  - done.
  - exists []. split; [intros g Hg; by apply elem_of_nil in Hg|].
    intros g Hg. right. exists (root P). split; [by left|].
    induction Hg as [|p a _ IH _]; [apply ancestors_self|].
    change (ancestors (child P p a)) with (child P p a :: ancestors p).
    by right.
Qed.

Lemma tree_step_cover (c c' : tconfig) (o : option (outcome Node)) :
  tree_cover P c → tree_step Comparator P c = (c', o) → o = None →
  tree_cover P c'.
Proof.
  intros (Hbuilt & Hgoal & D & HD & Hcov). unfold tree_step.
  destruct (tfrontier c) as [|S_ fr] eqn:Hfr; simpl; [by intros [= <- <-]|].
  apply Forall_cons in Hbuilt as [HbS Hbuilt].
  destruct (goal_test P (state S_)) eqn:Hg; intros [= <- <-]; [done|].
  intros _.
  pose proof (foldl_pq_push_children (child P S_) (actions P (state S_)) fr)
    as Hperm.
  split; [|split]; simpl.
  - rewrite Hperm. apply Forall_app. split; [|done].
    apply Forall_fmap, Forall_forall. intros a Ha. by constructor.
  - apply Forall_app. split; [done | by apply Forall_singleton].
  - exists (S_ :: D). split.
    + intros g [-> | Hin]%elem_of_cons; apply elem_of_app;
        [right; by left | left; by apply HD].
    + intros g Hbg. destruct (Hcov g Hbg) as [Hin | (n & Hn & Hanc)].
      { left. by right. }
      apply elem_of_cons in Hn as [-> | Hn].
      * destruct (built_ancestor_step g S_ Hbg Hanc)
          as [-> | (a & Ha & Hchild)]; [left; by left | right].
        exists (child P S_ a). split; [|done].
        rewrite Hperm. apply elem_of_app. left.
        apply list_elem_of_fmap. by exists a.
      * right. exists n. split; [|done].
        rewrite Hperm. apply elem_of_app. by right.
Qed.

Lemma tree_run_cover (k : nat) (c : tconfig) :
  tree_run Comparator P k (tree_init Comparator P) = (c, None) →
  tree_cover P c.
Proof.
  intros Hrun.
  destruct (while_loop_invariant (tree_step Comparator P)
              (tree_cover P) (λ _, True) (λ _ _, I))
    with (k := k) (c0 := tree_init Comparator P) as [_ Hinv].
  - intros c1 c2 o Hc Hstep. split; [done|]. intros ->.
    by apply (tree_step_cover c1 c2 None).
  - apply tree_cover_init.
  - unfold tree_run in Hrun. rewrite Hrun in Hinv. by apply Hinv.
Qed.

Lemma tree_step_returns (c c' : tconfig) (g : Node) :
  tree_step Comparator P c = (c', Some (Returns g)) →
  ∃ fr, tfrontier c = g :: fr ∧ goal_test P (state g) = true.
Proof.
  unfold tree_step. destruct (tfrontier c) as [|S_ fr]; simpl; [done|].
  destruct (goal_test P (state S_)) eqn:Hg; [|done].
  intros [= <- <-]. by exists fr.
Qed.

(** X13: tree search enqueues every child.  When the popped node is no
    goal, the frontier afterwards holds the entries that were left and one
    child for each action of the node's state, whether or not the child's
    state was seen before. *)
Theorem tree_step_enqueues_all (c : tconfig) (S_ : Node) (fr : list Node) :
  pop (tfrontier c) = Some (S_, fr) →
  goal_test P (state S_) = false →
  let c' := (tree_step Comparator P c).1 in
  (tree_step Comparator P c).2 = None
  ∧ tfrontier c' ≡ₚ (child P S_ <$> actions P (state S_)) ++ fr
  ∧ length (tfrontier c')
    = (length (actions P (state S_)) + length fr)%nat
  ∧ tpopped c' = tpopped c ++ [state S_].
Proof.
  intros Hpop Hg. unfold tree_step. rewrite Hpop, Hg. simpl.
  pose proof (foldl_pq_push_children (child P S_) (actions P (state S_)) fr)
    as Hperm.
  split; [done|]. split; [done|]. split; [|done].
  by rewrite Hperm, length_app, length_fmap.
Qed.

(** X7: the node that tree search returns passes the goal test, and its
    parent chain is a route of the problem from the initial state whose
    step costs add up to the node's path cost. *)
Theorem tree_search_returns_route (fuel : nat) (g : Node) :
  best_first_search_tree Comparator P fuel = Some (Returns g) →
  goal_test P (state g) = true
  ∧ route P (state <$> ancestors g) (path_cost g).
Proof.
  unfold best_first_search_tree, tree_run.
  destruct (while_loop _ fuel _) as [c' o] eqn:Hrun. simpl. intros ->.
  apply while_loop_finished in Hrun as (k & c & _ & Hrun & Hstep).
  apply tree_run_cover in Hrun as (Hbuilt & _).
  apply tree_step_returns in Hstep as (fr & Hfr & Hg).
  split; [done|]. rewrite Hfr in Hbuilt.
  apply Forall_cons in Hbuilt as [Hb _].
  by apply generated_route, built_generated.
Qed.

(** X8: tree search fails only when there is no goal to find: if it throws
    [goal_not_found], no state that actions lead to from the initial state
    passes the goal test. *)
Theorem tree_search_throws_no_goal (fuel : nat) (s : State) :
  best_first_search_tree Comparator P fuel = Some Throws_goal_not_found →
  reachable P s → goal_test P s = false.
Proof.
  intros (k & c & _ & Hrun & Hfr & _)%tree_search_throws
    (c0 & l & Hr)%path_to_reachable.
  apply tree_run_cover in Hrun as (_ & Hgoal & D & HD & Hcov).
  apply route_built in Hr as (g & Hg & Hl & _).
  assert (state g = s) as <-.
  { rewrite (ancestors_unfold g) in Hl. by injection Hl. }
  rewrite Forall_forall in Hgoal. apply Hgoal, HD.
  destruct (Hcov g Hg) as [? | (n & Hn & _)]; [done|].
  rewrite Hfr in Hn. by apply elem_of_nil in Hn.
Qed.
End TreeSearchResults.

(** ** Tree search: the node returned is a cheapest goal node *)

Section TreeSearchOptimal.
Context {State Action : Type} `{Inhabited Action}.
Local Abbreviation Node := (Node State Action).
Local Abbreviation tconfig := (tconfig State Action).
Variable Comparator : Node → Node → bool.
Variable P : Problem State Action.
Hypothesis Comparator_cost : cost_ordered Comparator.
Hypothesis costs_nonneg : nonneg_costs P.

Local Abbreviation by_cost :=
  (λ a b : Node, path_cost a ≤ path_cost b).




End TreeSearchOptimal.

(** ** Recursive best-first search: what it returns, when it fails *)

Section RBFSResults.
Context {State Action : Type} `{Inhabited Action}.
Local Abbreviation Node := (Node State Action).
Local Abbreviation NodeCost := (@recursive.NodeCost State Action).
Local Abbreviation Call := (@recursive.Call State Action).
Local Abbreviation SearchResult := (@recursive.SearchResult State Action).
Variable f : Node → Z.
Variable split : Node → Node → bool.
Variable INF : Z.
Variable P : Problem State Action.
Local Abbreviation cost := recursive.cost.
Local Abbreviation node := recursive.node.
Local Abbreviation rbfs_while := (recursive.rbfs_while split INF).
Local Abbreviation rbfs := (recursive.recursive_best_first_search f split INF).
Local Abbreviation make_children := (recursive.make_children f split).
Local Abbreviation child_entry := (recursive.child_entry f).

Lemma descends_ge (N g : Node) (m : Z) : descends P f N g m → f N ≤ m.
Proof. induction 1; lia. Qed.

Lemma descends_last_ge (N g : Node) (m : Z) : descends P f N g m → f g ≤ m.
Proof. induction 1; lia. Qed.

(** Below a child is below the parent. *)
Lemma descends_below_child (N g : Node) (a : Action) (m : Z) :
  a ∈ actions P (state N) → descends P f (child P N a) g m →
  descends P f N g (Z.max (f N) m).
Proof.
  intros Ha. induction 1 as [|p m b Hp IH Hb].
  - apply descends_child; [constructor | done].
  - rewrite Z.max_assoc. by constructor.
Qed.

(** A node below [N] is [N], or is below one of its children. *)
Lemma descends_first_step (N g : Node) (m : Z) :
  descends P f N g m →
  (g = N ∧ m = f N)
  ∨ ∃ a m1, a ∈ actions P (state N) ∧ descends P f (child P N a) g m1
            ∧ m = Z.max (f N) m1.
Proof.
  induction 1 as [|p m b Hp IH Hb]; [by left | right].
  destruct IH as [[-> ->] | (a & m1 & Ha & Hd & ->)].
  - exists b, (f (child P N b)). split; [done|]. split; [constructor | done].
  - exists a, (Z.max m1 (f (child P p b))).
    split; [done|]. split; [by constructor | by rewrite Z.max_assoc].
Qed.

Lemma descends_built (g : Node) (m : Z) :
  descends P f (root P) g m → built P g.
Proof. induction 1; by constructor. Qed.

Section WhileGoal.
Variable rec : Node → Z → Z → option (SearchResult * list Call).
Variable NODE : Node.
Hypothesis rec_goal : ∀ N F B g c tr,
  rec N F B = Some ((Some g, c), tr) →
  goal_test P (state g) = true ∧ c = 0 ∧ ∃ m, descends P f N g m.

Lemma rbfs_while_goal (fuel : nat) :
  ∀ (children : list NodeCost) (B : Z) g c tr,
    Forall (λ nc, ∃ a, a ∈ actions P (state NODE)
                       ∧ node nc = child P NODE a) children →
    rbfs_while rec fuel children B = Some ((Some g, c), tr) →
    goal_test P (state g) = true ∧ c = 0 ∧ ∃ m, descends P f NODE g m.
Proof.
  induction fuel as [|fuel IH]; intros children B g c tr Hch; [done|].
  simpl. destruct children as [|BEST it]; [done|].
  apply Forall_cons in Hch as [(a & Ha & HB) Hch].
  destruct (_ && _); [|done].
  destruct (rec _ _ _) as [[[[goal|] c1] tr1]|] eqn:Hrec; [| |done]; simpl.
  - intros [= <- <- <-].
    destruct (rec_goal _ _ _ _ _ _ Hrec) as (Hg & Hc & m & Hm).
    split; [done|]. split; [done|]. rewrite HB in Hm.
    eexists. by eapply descends_below_child.
  - destruct (rbfs_while _ _ _ _) as [[R tr']|] eqn:Hloop; [|done].
    intros [= -> <-]. eapply IH; [|done].
    rewrite pq_push_perm. constructor; [|done]. by exists a.
Qed.
End WhileGoal.

Lemma rbfs_goal (fuel : nat) :
  ∀ NODE F_N B g c tr,
    rbfs P fuel NODE F_N B = Some ((Some g, c), tr) →
    goal_test P (state g) = true ∧ c = 0 ∧ ∃ m, descends P f NODE g m.
Proof.
  induction fuel as [|fuel IH]; intros NODE F_N B g c tr; [done|].
  simpl. destruct (f NODE >? B); [done|].
  destruct (goal_test P (state NODE)) eqn:Hg.
  { intros [= <- <- <-]. split; [done|]. split; [done|].
    eexists. constructor. }
  destruct (actions P (state NODE)) as [|a acts] eqn:Hacts; [done|].
  apply (rbfs_while_goal _ NODE IH).
  apply Forall_forall.
  intros nc (b & Hb & ->)%elem_of_make_children.
  by exists b.
Qed.

(** X10: the node that the recursive search returns passes the goal test,
    and its parent chain is a route of the problem from the initial state
    whose step costs add up to the node's path cost. *)
Theorem rbfs_returns_route (fuel : nat) (g : Node) :
  recursive_best_first_search f split INF P fuel = Some (Returns g) →
  goal_test P (state g) = true
  ∧ route P (state <$> ancestors g) (path_cost g).
Proof.
  unfold recursive_best_first_search.
  destruct (rbfs P fuel _ _ _) as [[[[goal|] c] tr]|] eqn:Hrun; [|done..].
  simpl. intros [= ->].
  apply rbfs_goal in Hrun as (Hg & _ & m & Hm).
  split; [done|].
  by eapply generated_route, built_generated, descends_built.
Qed.

Section WhileNoGoal.
Variable rec : Node → Z → Z → option (SearchResult * list Call).
Variable g : Node.
Hypothesis rec_bound : ∀ N F B c tr m,
  rec N F B = Some ((None, c), tr) → descends P f N g m → c ≤ Z.max F m.

(** While some child above the goal node [g] is stored with a cost of at
    most [K], a frame that returns no goal returns at most [K]. *)
Lemma rbfs_while_no_goal (n1 : Node) (m1 K : Z) (fuel : nat) :
  descends P f n1 g m1 → m1 ≤ K →
  ∀ (children : list NodeCost) (B : Z) c tr,
    recursive.cost_sorted children →
    (∃ nc, nc ∈ children ∧ node nc = n1 ∧ cost nc ≤ K) →
    rbfs_while rec fuel children B = Some ((None, c), tr) →
    c ≤ K.
Proof.
  intros Hd Hm.
  induction fuel as [|fuel IH]; intros children B c tr Hs Hnc; [done|].
  simpl. destruct children as [|BEST it]; [done|].
  pose proof Hs as [Hit Hall]%StronglySorted_inv.
  destruct (_ && _).
  - destruct (rec _ _ _) as [[[[goal|] c1] tr1]|] eqn:Hrec; [done| |done].
    simpl.
    destruct (rbfs_while _ _ _ _) as [[R tr']|] eqn:Hloop; [|done].
    intros [= -> <-]. eapply IH; [| |done].
    + by apply pq_push_cost_sorted.
    + destruct Hnc as (nc & [-> | Hin]%elem_of_cons & Hn & Hc).
      * exists (recursive.update_cost c1 BEST).
        split; [apply elem_of_pq_push; by left|]. split; [done|]. simpl.
        rewrite <- Hn in Hd.
        pose proof (rec_bound _ _ _ _ _ _ Hrec Hd). lia.
      * exists nc. split; [apply elem_of_pq_push; by right | done].
  - intros [= <- <-]. simpl.
    destruct Hnc as (nc & [-> | Hin]%elem_of_cons & _ & Hc); [done|].
    eapply Forall_forall in Hall; [|done]. simpl in Hall. lia.
Qed.
End WhileNoGoal.

(** A call that returns no goal although a goal node [g] lies below its
    node returns at most the larger of its argument F_N and the largest
    [f] on the way to [g]. *)
Lemma rbfs_no_goal_bound (g : Node) (fuel : nat) :
  goal_test P (state g) = true →
  ∀ NODE F_N B c tr m,
    rbfs P fuel NODE F_N B = Some ((None, c), tr) →
    descends P f NODE g m → c ≤ Z.max F_N m.
Proof.
  intros Hgoal.
  induction fuel as [|fuel IH]; intros NODE F_N B c tr m; [done|].
  simpl. intros Hrun Hd.
  pose proof (descends_ge _ _ _ Hd) as HfN.
  destruct (f NODE >? B); [injection Hrun as <- <-; lia|].
  destruct (goal_test P (state NODE)) eqn:Hg; [done|].
  apply descends_first_step in Hd
    as [[-> _] | (a & m1 & Ha & Hd & ->)]; [congruence|].
  destruct (actions P (state NODE)) as [|a0 acts] eqn:Hacts.
  { by apply elem_of_nil in Ha. }
  rewrite <- Hacts in Ha.
  eapply (rbfs_while_no_goal _ g IH (child P NODE a) m1); [done| | | |done].
  - lia.
  - apply make_children_sorted.
  - exists (child_entry P NODE F_N a). split; [|split; [done|]].
    + apply elem_of_make_children. by exists a.
    + pose proof (descends_ge _ _ _ Hd).
      unfold recursive.child_entry. simpl. case_match; lia.
Qed.

(** X11: the recursive search fails only when every goal lies beyond
    [INF].  If the entry point throws [goal_not_found], then on the way from
    the root to any node whose state passes the goal test some node has an
    [f] of [INF] or more. *)
Theorem rbfs_throws_no_goal (fuel : nat) (g : Node) (m : Z) :
  recursive_best_first_search f split INF P fuel
    = Some Throws_goal_not_found →
  descends P f (root P) g m → goal_test P (state g) = true →
  INF ≤ m.
Proof.
  intros (c & tr & Hrun)%rbfs_entry_throws Hd Hg.
  pose proof (rbfs_no_goal_bound g fuel Hg _ _ _ _ _ _ Hrun Hd) as Hle.
  apply rbfs_ok in Hrun as [Hret _].
  pose proof (descends_ge _ _ _ Hd).
  destruct (Hret eq_refl); simpl in *; lia.
Qed.

Section Optimal.
(** [f] does not decrease from a node to any of its children. *)
Hypothesis f_mono : ∀ n a,
  a ∈ actions P (state n) → f n ≤ f (child P n a).

Lemma descends_mono (N g : Node) (m : Z) : descends P f N g m → m = f g.
Proof.
  induction 1 as [|p m a Hp IH Ha]; [done|].
  pose proof (f_mono p a Ha). lia.
Qed.

Local Abbreviation below_goals := (below_goals P f).

Section WhileBest.
Variable rec : Node → Z → Z → option (SearchResult * list Call).
Hypothesis rec_bound : ∀ g, goal_test P (state g) = true →
  ∀ N F B c tr m,
    rec N F B = Some ((None, c), tr) → descends P f N g m → c ≤ Z.max F m.
Hypothesis rec_best : ∀ N F B g c tr,
  rec N F B = Some ((Some g, c), tr) →
  (∀ g' m, descends P f N g' m → goal_test P (state g') = true → F ≤ f g') →
  f g ≤ B
  ∧ ∀ g' m, descends P f N g' m → goal_test P (state g') = true →
            f g ≤ f g'.

Lemma rbfs_while_best (fuel : nat) :
  ∀ (children : list NodeCost) (B : Z) g c tr,
    recursive.cost_sorted children →
    Forall below_goals children →
    rbfs_while rec fuel children B = Some ((Some g, c), tr) →
    f g ≤ B
    ∧ ∀ nc g' m, nc ∈ children → descends P f (node nc) g' m →
                 goal_test P (state g') = true → f g ≤ f g'.
Proof.
  induction fuel as [|fuel IH]; intros children B g c tr Hs Hbelow; [done|].
  simpl. destruct children as [|BEST it]; [done|].
  pose proof Hs as [Hit Hall]%StronglySorted_inv.
  apply Forall_cons in Hbelow as [HbB Hbelow].
  destruct (_ && _); [|done].
  destruct (rec _ _ _) as [[[[goal|] c1] tr1]|] eqn:Hrec; [| |done]; simpl.
  - intros [= <- <- <-].
    destruct (rec_best _ _ _ _ _ _ Hrec) as [HgB Hbest]; [done|].
    split; [lia|].
    intros nc g' m [-> | Hin]%elem_of_cons Hd Hg'; [by eapply Hbest|].
    assert (recursive.second_best_cost INF it ≤ cost nc) as Hsecond.
    { destruct it as [|sb it']; [by apply elem_of_nil in Hin|]. simpl.
      apply elem_of_cons in Hin as [-> | Hin]; [done|].
      apply StronglySorted_inv in Hit as [_ Hsb].
      eapply Forall_forall in Hsb; [|done]. done. }
    eapply Forall_forall in Hbelow; [|done].
    pose proof (Hbelow g' m Hd Hg'). lia.
  - destruct (rbfs_while _ _ _ _) as [[R tr']|] eqn:Hloop; [|done].
    intros [= -> <-].
    assert (below_goals (recursive.update_cost c1 BEST)) as Hupd.
    { intros g' m Hd Hg'. simpl in *.
      pose proof (rec_bound g' Hg' _ _ _ _ _ _ Hrec Hd).
      pose proof (HbB g' m Hd Hg'). pose proof (descends_mono _ _ _ Hd).
      lia. }
    apply IH in Hloop as [HgB Hbest].
    + split; [done|].
      intros nc g' m [-> | Hin]%elem_of_cons Hd Hg'.
      * apply (Hbest (recursive.update_cost c1 BEST) g' m);
          [apply elem_of_pq_push; by left | done | done].
      * apply (Hbest nc g' m); [apply elem_of_pq_push; by right | done..].
    + by apply pq_push_cost_sorted.
    + rewrite pq_push_perm. by constructor.
Qed.
End WhileBest.

Lemma rbfs_best (fuel : nat) :
  ∀ NODE F_N B g c tr,
    rbfs P fuel NODE F_N B = Some ((Some g, c), tr) →
    (∀ g' m, descends P f NODE g' m → goal_test P (state g') = true →
             F_N ≤ f g') →
    f g ≤ B
    ∧ ∀ g' m, descends P f NODE g' m → goal_test P (state g') = true →
              f g ≤ f g'.
Proof.
  induction fuel as [|fuel IH]; intros NODE F_N B g c tr; [done|].
  simpl. destruct (Z.gtb_spec (f NODE) B) as [|HB]; [done|].
  destruct (goal_test P (state NODE)) eqn:Hg.
  { intros [= <- <- <-] _. split; [done|].
    intros g' m Hd _. pose proof (descends_ge _ _ _ Hd).
    pose proof (descends_mono _ _ _ Hd). lia. }
  destruct (actions P (state NODE)) as [|a0 acts] eqn:Hacts; [done|].
  intros Hrun Hpre.
  apply (rbfs_while_best _
           (λ g0 Hg0, rbfs_no_goal_bound g0 fuel Hg0) IH) in Hrun
    as [HgB Hbest].
  - split; [done|]. intros g' m Hd Hg'.
    apply descends_first_step in Hd
      as [[-> _] | (a & m1 & Ha & Hd & ->)]; [congruence|].
    apply (Hbest (child_entry P NODE F_N a) g' m1); [|done|done].
    apply elem_of_make_children. by exists a.
  - apply make_children_sorted.
  - apply Forall_forall.
    intros nc (a & Ha & ->)%elem_of_make_children g' m Hd Hg'.
    pose proof (descends_ge _ _ _ Hd) as Hge.
    pose proof (descends_mono _ _ _ Hd) as ->.
    pose proof (Hpre g' _ (descends_below_child _ _ _ _ Ha Hd) Hg').
    unfold recursive.child_entry in *. simpl in *. case_match; lia.
Qed.

(** X14: with an [f] that never decreases from a node to its children,
    the recursive search returns a goal node of least [f]: no node below
    the root whose state passes the goal test has a smaller [f] than the
    node returned. *)
Theorem rbfs_optimal (fuel : nat) (g g' : Node) (m : Z) :
  recursive_best_first_search f split INF P fuel = Some (Returns g) →
  descends P f (root P) g' m → goal_test P (state g') = true →
  f g ≤ f g'.
Proof.
  unfold recursive_best_first_search.
  destruct (rbfs P fuel _ _ _) as [[[[goal|] c] tr]|] eqn:Hrun; [|done..].
  simpl. intros [= ->] Hd Hg'.
  apply rbfs_best in Hrun as [_ Hbest]; [by eapply Hbest|].
  intros g0 m0 Hd0 _. pose proof (descends_ge _ _ _ Hd0).
  pose proof (descends_mono _ _ _ Hd0). lia.
Qed.
End Optimal.
End RBFSResults.

(** ** Instances of the further properties on the example problems *)

Lemma by_path_cost_ordered : cost_ordered by_path_cost.
Proof.
  intros a b. unfold by_path_cost.
  destruct (Z.gtb_spec (path_cost a) (path_cost b)); split; intros; lia.
Qed.

Lemma three_states_nonneg : nonneg_costs three_states.
Proof.
  intros s a _. simpl.
  destruct s as [|[|?]]; destruct a as [|[|[|?]]]; simpl; lia.
Qed.

Lemma three_states_reachable (s : nat) :
  reachable three_states s → s ∈ three_states_set.
Proof.
  unfold three_states_set. rewrite !elem_of_union, !elem_of_singleton.
  induction 1 as [|s a _ IH Ha]; simpl; [lia|].
  destruct s as [|[|?]]; simpl in Ha;
    rewrite ?elem_of_cons, ?elem_of_nil in Ha; lia.
Qed.

Lemma three_states_goal_reachable : reachable three_states 2%nat.
Proof.
  apply (reachable_result three_states 0%nat 2%nat); [constructor|].
  simpl. right. left.
Qed.

Lemma three_states_direct_route : path_to three_states 2%nat 4.
Proof.
  exists [0%nat].
  apply (route_step three_states 0%nat [] 0 2%nat); [constructor|].
  simpl. right. left.
Qed.

Lemma handle_child_lookup_witness :
  let A := root three_states in
  let B := child three_states A 1%nat in
  let C := child three_states A 2%nat in
  let C' := child three_states B 2%nat in
  NoDup (state <$> [B; C])
  ∧ ∃ i, find (state C') (handle_child by_path_cost [B; C] C').1
         = Some (i, C').
Proof.
  intros A B C C'.
  assert (NoDup (state <$> [B; C])) as Hnd.
  { apply NoDup_cons. split; [|apply NoDup_singleton].
    intros Hin%list_elem_of_singleton. discriminate Hin. }
  split; [exact Hnd|].
  destruct (handle_child_lookup by_path_cost [B; C] C' Hnd)
    as (_ & i & n & Hfind & Hn).
  exists i. rewrite Hfind, Hn. reflexivity.
Defined.

Lemma graph_search_returns_route_witness :
  best_first_search by_path_cost three_states 4
  = Some (Returns ([2%nat; 1%nat; 0%nat], 2))
  ∧ route three_states [2%nat; 1%nat; 0%nat] 2.
Proof.
  assert (best_first_search by_path_cost three_states 4
          = Some (Returns ([2%nat; 1%nat; 0%nat], 2))) as Hrun
    by (vm_compute; reflexivity).
  split; [exact Hrun|].
  exact (proj1 (graph_search_returns_route by_path_cost three_states 4
                  _ _ Hrun)).
Defined.

Lemma graph_search_throws_no_goal_witness :
  best_first_search by_path_cost no_goal 4 = Some Throws_goal_not_found
  ∧ reachable no_goal 2%nat
  ∧ goal_test no_goal 2%nat = false.
Proof.
  assert (best_first_search by_path_cost no_goal 4
          = Some Throws_goal_not_found) as Hrun by (vm_compute; reflexivity).
  assert (reachable no_goal 2%nat) as Hreach.
  { apply (reachable_result no_goal 0%nat 2%nat); [constructor|].
    simpl. right. left. }
  split; [exact Hrun|]. split; [exact Hreach|].
  exact (graph_search_throws_no_goal by_path_cost no_goal 4 2%nat
           Hrun Hreach).
Defined.

Lemma graph_search_terminates_witness :
  (size three_states_set < 4)%nat
  ∧ ∃ r, best_first_search by_path_cost three_states 4 = Some r.
Proof.
  assert (size three_states_set < 4)%nat as Hsize by (vm_compute; lia).
  split; [exact Hsize|].
  exact (graph_search_terminates by_path_cost three_states three_states_set
           4 three_states_reachable Hsize).
Defined.

Lemma graph_search_finds_goal_witness :
  (size three_states_set < 4)%nat
  ∧ ∃ out cost,
      best_first_search by_path_cost three_states 4
      = Some (Returns (out, cost)).
Proof.
  assert (size three_states_set < 4)%nat as Hsize by (vm_compute; lia).
  split; [exact Hsize|].
  exact (graph_search_finds_goal by_path_cost three_states three_states_set
           4 2%nat three_states_reachable three_states_goal_reachable
           eq_refl Hsize).
Defined.

Lemma graph_search_optimal_witness :
  best_first_search by_path_cost three_states 4
  = Some (Returns ([2%nat; 1%nat; 0%nat], 2))
  ∧ path_to three_states 2%nat 4
  ∧ 2 ≤ 4.
Proof.
  assert (best_first_search by_path_cost three_states 4
          = Some (Returns ([2%nat; 1%nat; 0%nat], 2))) as Hrun
    by (vm_compute; reflexivity).
  split; [exact Hrun|]. split; [exact three_states_direct_route|].
  exact (graph_search_optimal by_path_cost three_states
           by_path_cost_ordered three_states_nonneg 4 _ _ 2%nat 4
           Hrun three_states_direct_route eq_refl).
Defined.

Lemma tree_step_enqueues_all_witness :
  let c := tree_init by_path_cost three_states in
  pop (tfrontier c) = Some (root three_states, [])
  ∧ length (tfrontier (tree_step by_path_cost three_states c).1) = 2%nat.
Proof.
  intros c.
  assert (pop (tfrontier c) = Some (root three_states, [])) as Hpop
    by reflexivity.
  split; [exact Hpop|].
  exact (proj1 (proj2 (proj2 (tree_step_enqueues_all by_path_cost
           three_states c (root three_states) [] Hpop eq_refl)))).
Defined.

Lemma tree_search_returns_route_witness :
  let C' := child three_states (child three_states (root three_states) 1%nat)
              2%nat in
  best_first_search_tree by_path_cost three_states 4 = Some (Returns C')
  ∧ route three_states [2%nat; 1%nat; 0%nat] 2.
Proof.
  intros C'.
  assert (best_first_search_tree by_path_cost three_states 4
          = Some (Returns C')) as Hrun by (vm_compute; reflexivity).
  split; [exact Hrun|].
  exact (proj2 (tree_search_returns_route by_path_cost three_states 4 C'
                  Hrun)).
Defined.

Lemma tree_search_throws_no_goal_witness :
  best_first_search_tree by_path_cost no_goal 6 = Some Throws_goal_not_found
  ∧ reachable no_goal 2%nat
  ∧ goal_test no_goal 2%nat = false.
Proof.
  assert (best_first_search_tree by_path_cost no_goal 6
          = Some Throws_goal_not_found) as Hrun by (vm_compute; reflexivity).
  assert (reachable no_goal 2%nat) as Hreach.
  { apply (reachable_result no_goal 0%nat 2%nat); [constructor|].
    simpl. right. left. }
  split; [exact Hrun|]. split; [exact Hreach|].
  exact (tree_search_throws_no_goal by_path_cost no_goal 6 2%nat
           Hrun Hreach).
Defined.


Lemma rbfs_returns_route_witness :
  let C' := child three_states (child three_states (root three_states) 1%nat)
              2%nat in
  recursive_best_first_search f_path_cost no_split INT_MAX three_states 4
  = Some (Returns C')
  ∧ route three_states [2%nat; 1%nat; 0%nat] 2.
Proof.
  intros C'.
  assert (recursive_best_first_search f_path_cost no_split INT_MAX
            three_states 4 = Some (Returns C')) as Hrun
    by (vm_compute; reflexivity).
  split; [exact Hrun|].
  exact (proj2 (rbfs_returns_route f_path_cost no_split INT_MAX three_states
                  4 C' Hrun)).
Defined.

Lemma rbfs_throws_no_goal_witness :
  let B := child three_states (root three_states) 1%nat in
  let C' := child three_states B 2%nat in
  recursive_best_first_search f_path_cost no_split 2 three_states 6
  = Some Throws_goal_not_found
  ∧ descends three_states f_path_cost (root three_states) C' 2
  ∧ 2 ≤ 2.
Proof.
  intros B C'.
  assert (recursive_best_first_search f_path_cost no_split 2 three_states 6
          = Some Throws_goal_not_found) as Hrun by (vm_compute; reflexivity).
  assert (descends three_states f_path_cost (root three_states) C' 2)
    as Hd.
  { apply (descends_child three_states f_path_cost (root three_states)
             B 1 2%nat).
    - apply (descends_child three_states f_path_cost (root three_states)
               (root three_states) 0 1%nat); [constructor|].
      simpl. left.
    - simpl. left. }
  split; [exact Hrun|]. split; [exact Hd|].
  exact (rbfs_throws_no_goal f_path_cost no_split 2 three_states 6 C' 2
           Hrun Hd eq_refl).
Defined.

Lemma rbfs_optimal_witness :
  let C := child three_states (root three_states) 2%nat in
  let C' := child three_states (child three_states (root three_states) 1%nat)
              2%nat in
  recursive_best_first_search f_path_cost no_split INT_MAX three_states 4
  = Some (Returns C')
  ∧ descends three_states f_path_cost (root three_states) C 4
  ∧ f_path_cost C' ≤ f_path_cost C.
Proof.
  intros C C'.
  assert (recursive_best_first_search f_path_cost no_split INT_MAX
            three_states 4 = Some (Returns C')) as Hrun
    by (vm_compute; reflexivity).
  assert (descends three_states f_path_cost (root three_states) C 4) as Hd.
  { apply (descends_child three_states f_path_cost (root three_states)
             (root three_states) 0 2%nat); [constructor|].
    simpl. right. left. }
  split; [exact Hrun|]. split; [exact Hd|].
  exact (rbfs_optimal f_path_cost no_split INT_MAX three_states
           (λ n a _, three_states_step_cost_nonneg n a) 4 C' C 4
           Hrun Hd eq_refl).
Defined.

(** ** The children structure of a frame *)

Section ChildrenOrder.
Context {State Action : Type}.
Variable f : Node State Action → Z.
Variable split : Node State Action → Node State Action → bool.
Variable P : Problem State Action.

(** X15: the tie policy never overrides the stored costs.  Whatever
    [split] answers, the children built for a node are in ascending order
    of stored cost, one entry per action, so that the entry [top()] gives is
    one of least stored cost. *)
Theorem make_children_best_first (NODE : Node State Action) (F_N : Z) :
  recursive.cost_sorted (recursive.make_children f split P NODE F_N)
  ∧ length (recursive.make_children f split P NODE F_N)
    = length (actions P (state NODE))
  ∧ ∀ BEST it,
      recursive.make_children f split P NODE F_N = BEST :: it →
      ∀ nc, nc ∈ BEST :: it → recursive.cost BEST ≤ recursive.cost nc.
Proof.
  pose proof (make_children_sorted f split P NODE F_N) as Hsorted.
  split; [done|]. split.
  - by rewrite make_children_perm, length_fmap.
  - intros BEST it Heq nc Hnc. rewrite Heq in Hsorted.
    apply StronglySorted_inv in Hsorted as [_ Hall].
    apply elem_of_cons in Hnc as [-> | Hnc]; [done|].
    eapply Forall_forall in Hall; [|done]. done.
Qed.
End ChildrenOrder.

Lemma make_children_best_first_witness :
  let B := child three_states (root three_states) 1%nat in
  let C := child three_states (root three_states) 2%nat in
  recursive.make_children f_path_cost (λ _ _, true) three_states
    (root three_states) 0
  = [recursive.mkNodeCost B 1; recursive.mkNodeCost C 4]
  ∧ 1 ≤ 4.
Proof.
  intros B C.
  assert (recursive.make_children f_path_cost (λ _ _, true) three_states
            (root three_states) 0
          = [recursive.mkNodeCost B 1; recursive.mkNodeCost C 4]) as Heq
    by (vm_compute; reflexivity).
  split; [exact Heq|].
  exact (proj2 (proj2 (make_children_best_first f_path_cost (λ _ _, true)
           three_states (root three_states) 0)) _ _ Heq
           (recursive.mkNodeCost C 4) ltac:(right; left)).
Defined.
